(** * ChessBot: the evaluator and the alpha-beta search of [chess_engine.py]

    The engine of [src/chess_engine.py] is embedded here: [Engine.minimax],
    [Engine.evaluate_board], [Engine.mate] and [Engine.square_score].  The
    chess rules themselves come from the python-chess library, which the
    engine only reaches through [legal_moves], [push], [pop], [turn],
    [piece_map], [piece_type_at] and [color_at]; that interface is the class
    [Position] below, and every result is proved for an arbitrary
    implementation of it. *)

From Stdlib Require Import String.
From Stdlib Require Import ZArith List Bool Lia QArith.
Import ListNotations.

Local Open Scope Z_scope.

(** ** Data model *)

(** [chess.Color] is a Python bool: [chess.WHITE = True], [chess.BLACK = False]. *)
Definition Color := bool.
Definition WHITE : Color := true.
Definition BLACK : Color := false.

(** [chess.PieceType]: the constants [ch.PAWN] .. [ch.KING]. *)
Inductive PieceType := PAWN | KNIGHT | BISHOP | ROOK | QUEEN | KING.

(** [chess.Square] is an int (0..63 on a real board). *)
Definition Square := Z.

(** [chess.Piece]. *)
Record Piece := mkPiece { piece_type : PieceType; piece_color : Color }.

(** Scores.  The engine adds the Python numbers 1, 3, 3.25, 5, 9, 20 and
    9999; all of them, and every sum of at most 64 of them, are multiples
    of 1/4 that a double holds exactly.  A finite score is therefore kept as
    the integer number of quarter pawns ([pawns] gives the Python number),
    and [float("-inf")], [float("inf")] are separate constructors. *)
Inductive Score := NegInf | Fin (q : Z) | PosInf.

Definition pawns (q : Z) : Q := q # 4.

(** [a < b] on Python floats. *)
Definition slt (a b : Score) : bool :=
  match a, b with
  | _, NegInf => false
  | NegInf, _ => true
  | PosInf, _ => false
  | Fin _, PosInf => true
  | Fin x, Fin y => x <? y
  end.

(** [a >= b], that is [not (a < b)]. *)
Definition sge (a b : Score) : bool := negb (slt a b).

(** Python's [max(a, b)]: the first argument unless the second is greater. *)
Definition smax (a b : Score) : Score := if slt a b then b else a.

(** Python's [min(a, b)]: the first argument unless the second is smaller. *)
Definition smin (a b : Score) : Score := if slt b a then b else a.

(** ** The Position collaborator (python-chess [Board]) *)

Class Position (Board Move : Type) := {
  (** [list(board.legal_moves)], in the library's enumeration order *)
  legal_moves : Board -> list Move;
  (** [board.push(move)] *)
  push : Board -> Move -> Board;
  (** [board.pop()] *)
  pop : Board -> Board;
  (** [board.turn] *)
  turn : Board -> Color;
  (** [board.piece_map()]: the dict from occupied squares to pieces, as the
      list of its items in iteration order *)
  piece_map : Board -> list (Square * Piece)
}.

(** The library's contract for [pop]: it undoes the last [push]. *)
Definition StackDiscipline {Board Move} `{Position Board Move} : Prop :=
  forall (b : Board) (m : Move), In m (legal_moves b) -> pop (push b m) = b.

(** A chess board has 64 squares, so at most 64 of them are occupied. *)
Definition BoardSize {Board Move} `{Position Board Move} (b : Board) : Prop :=
  (length (piece_map b) <= 64)%nat.

Section Engine.

Context {Board Move : Type} `{P : Position Board Move}.

(** [self.color], fixed when the engine is built. *)
Variable color : Color.

(** The piece on a square: the dict lookup behind [piece_type_at] and
    [color_at]. *)
Fixpoint lookup_square (pm : list (Square * Piece)) (square : Square)
  : option Piece :=
  match pm with
  | [] => None
  | (s, p) :: rest => if s =? square then Some p else lookup_square rest square
  end.

(** [board.piece_type_at(square)]: the piece type there, or [None]. *)
Definition piece_type_at (b : Board) (square : Square) : option PieceType :=
  option_map piece_type (lookup_square (piece_map b) square).

(** [board.color_at(square)]: the colour of the piece there, or [None]. *)
Definition color_at (b : Board) (square : Square) : option Color :=
  option_map piece_color (lookup_square (piece_map b) square).

(** [board.legal_moves.count()] *)
Definition legal_moves_count (b : Board) : Z := Z.of_nat (length (legal_moves b)).

(** ** The evaluator *)

(** [piece_type_at(square) == t], where the left side may be [None]. *)
Definition piece_type_is (o : option PieceType) (t : PieceType) : bool :=
  match o, t with
  | Some PAWN, PAWN | Some KNIGHT, KNIGHT | Some BISHOP, BISHOP
  | Some ROOK, ROOK | Some QUEEN, QUEEN | Some KING, KING => true
  | _, _ => false
  end.

(** [color_at(square) != c]; [None] differs from both colours. *)
Definition color_differs (o : option Color) (c : Color) : bool :=
  match o with
  | Some c' => negb (Bool.eqb c' c)
  | None => true
  end.

(** [Engine.square_score]: the if/elif chain on the piece type, then the
    sign. *)
Definition square_score (b : Board) (square : Square) : Z :=
  let rv :=
    if piece_type_is (piece_type_at b square) PAWN then 4
    else if piece_type_is (piece_type_at b square) KNIGHT then 12
    else if piece_type_is (piece_type_at b square) BISHOP then 13
    else if piece_type_is (piece_type_at b square) ROOK then 20
    else if piece_type_is (piece_type_at b square) QUEEN then 36
    else if piece_type_is (piece_type_at b square) KING then 80
    else 0 in
  if color_differs (color_at b square) color then -1 * rv else rv.

(** [Engine.mate] *)
Definition mate (b : Board) : Z :=
  if legal_moves_count b =? 0 then
    if Bool.eqb (turn b) color then -39996 else 39996
  else 0.

(** [Engine.evaluate_board]: the loop [for square in piece_map(): rv += ...]
    as a left fold over the keys, then [rv += self.mate()]. *)
Definition evaluate_board (b : Board) : Z :=
  let rv := fold_left (fun rv square => rv + square_score b square)
                      (map fst (piece_map b)) 0 in
  rv + mate b.

(** ** The search *)

(** What one call returns: [(score, best_move)], and the board it leaves. *)
Definition Outcome : Type := Score * option Move * Board.

(** A recursive call, seen from the loop that makes it: it takes the
    [alpha] and [beta] of the moment and the board after the push. *)
Definition Search : Type := Score -> Score -> Board -> option Outcome.

(** The [for move in moves] loop of the maximizing branch; [search alpha beta
    b] is the recursive call [self.minimax(depth - 1, alpha, beta, False)]
    run on board [b]. *)
Fixpoint max_loop (search : Search)
    (moves : list Move) (max_value : Score) (best_move : option Move)
    (alpha beta : Score) (b : Board) : option Outcome :=
  match moves with
  | [] => Some (max_value, best_move, b)
  | move :: rest =>
      let b1 := push b move in
      match search alpha beta b1 with
      | None => None
      | Some (score, _, b2) =>
          let b3 := pop b2 in
          let '(max_value', best_move') :=
            if slt max_value score then (score, Some move)
            else (max_value, best_move) in
          let alpha' := smax alpha score in
          if sge alpha' beta then Some (max_value', best_move', b3)
          else max_loop search rest max_value' best_move' alpha' beta b3
      end
  end.

(** The loop of the minimizing branch. *)
Fixpoint min_loop (search : Search)
    (moves : list Move) (min_value : Score) (best_move : option Move)
    (alpha beta : Score) (b : Board) : option Outcome :=
  match moves with
  | [] => Some (min_value, best_move, b)
  | move :: rest =>
      let b1 := push b move in
      match search alpha beta b1 with
      | None => None
      | Some (score, _, b2) =>
          let b3 := pop b2 in
          let '(min_value', best_move') :=
            if slt score min_value then (score, Some move)
            else (min_value, best_move) in
          let beta' := smin beta score in
          if sge alpha beta' then Some (min_value', best_move', b3)
          else min_loop search rest min_value' best_move' alpha beta' b3
      end
  end.

(** [Engine.minimax].  [depth] is a Python int; [fuel] bounds the number of
    nested calls (the interpreter's recursion limit), [None] meaning that
    the bound was hit. *)
Fixpoint minimax (fuel : nat) (depth : Z) (alpha beta : Score)
    (bot_turn : bool) (b : Board) : option Outcome :=
  match fuel with
  | O => None
  | S fuel' =>
      if (depth =? 0) || (legal_moves_count b =? 0) then
        Some (Fin (evaluate_board b), None, b)
      else if bot_turn then
        max_loop (fun a be b' => minimax fuel' (depth - 1) a be false b')
                 (legal_moves b) NegInf None alpha beta b
      else
        min_loop (fun a be b' => minimax fuel' (depth - 1) a be true b')
                 (legal_moves b) PosInf None alpha beta b
  end.

(** ** Reference definitions

    The quantities the engine is compared with.  They take no part in the
    engine above. *)

(** The piece values, in quarter pawns. *)
Definition piece_value (t : PieceType) : Z :=
  match t with
  | PAWN => 4 | KNIGHT => 12 | BISHOP => 13
  | ROOK => 20 | QUEEN => 36 | KING => 80
  end.

(** A piece counts for the engine when it has the engine's colour and
    against it otherwise. *)
Definition signed_value (p : Piece) : Z :=
  if Bool.eqb (piece_color p) color then piece_value (piece_type p)
  else - piece_value (piece_type p).

Definition Zsum (l : list Z) : Z := fold_right Z.add 0 l.

(** The material term: the signed values of the pieces on the occupied
    squares, summed. *)
Definition material (b : Board) : Z :=
  Zsum (map (fun square =>
               match lookup_square (piece_map b) square with
               | Some p => signed_value p
               | None => 0
               end)
            (map fst (piece_map b))).

(** The terminal bonus. *)
Definition terminal_bonus (b : Board) : Z :=
  match legal_moves b with
  | [] => if Bool.eqb (turn b) color then -39996 else 39996
  | _ :: _ => 0
  end.

(** Unpruned, exhaustive minimax to [depth] plies, [evaluate_board] at the
    leaves: the maximum (engine to move) or minimum (opponent to move) of
    the values of all children. *)
Fixpoint exhaustive (depth : nat) (bot_turn : bool) (b : Board) : Score :=
  match depth with
  | O => Fin (evaluate_board b)
  | S d =>
      match legal_moves b with
      | [] => Fin (evaluate_board b)
      | moves =>
          if bot_turn then
            fold_left smax (map (fun m => exhaustive d false (push b m)) moves)
                      NegInf
          else
            fold_left smin (map (fun m => exhaustive d true (push b m)) moves)
                      PosInf
      end
  end.

(** [v] brought into the window [alpha, beta]. *)
Definition clamp (alpha beta v : Score) : Score := smax alpha (smin beta v).

(** The moves the maximizing loop examines, each with the score its
    recursive call returned, in the order of the loop: the loop's own
    threading of [alpha] and of the board, and its [break]. *)
Fixpoint max_examined (search : Search)
    (moves : list Move) (alpha beta : Score) (b : Board)
  : list (Move * Score) :=
  match moves with
  | [] => []
  | move :: rest =>
      match search alpha beta (push b move) with
      | None => []
      | Some (score, _, b2) =>
          (move, score) ::
          (if sge (smax alpha score) beta then []
           else max_examined search rest (smax alpha score) beta (pop b2))
      end
  end.

(** The same for the minimizing loop. *)
Fixpoint min_examined (search : Search)
    (moves : list Move) (alpha beta : Score) (b : Board)
  : list (Move * Score) :=
  match moves with
  | [] => []
  | move :: rest =>
      match search alpha beta (push b move) with
      | None => []
      | Some (score, _, b2) =>
          (move, score) ::
          (if sge alpha (smin beta score) then []
           else min_examined search rest alpha (smin beta score) (pop b2))
      end
  end.

(** The moves examined at the node of a call [minimax (S fuel) depth alpha
    beta bot_turn b]; a leaf examines none. *)
Definition examined (fuel : nat) (depth : Z) (alpha beta : Score)
    (bot_turn : bool) (b : Board) : list (Move * Score) :=
  if (depth =? 0) || (legal_moves_count b =? 0) then []
  else if bot_turn then
    max_examined (fun a be b' => minimax fuel (depth - 1) a be false b')
                 (legal_moves b) alpha beta b
  else
    min_examined (fun a be b' => minimax fuel (depth - 1) a be true b')
                 (legal_moves b) alpha beta b.

(** A call that leaves the board as it found it. *)
Definition keeps_board (search : Search) : Prop :=
  forall a be b0 r b2, search a be b0 = Some (r, b2) -> b2 = b0.

(** A call that, on any window [a < be], returns, leaves the board as it
    found it, and gives a score that agrees with [value] once both are
    brought into the window. *)
Definition agrees (search : Search) (value : Board -> Score) : Prop :=
  forall a be b0,
    slt a be = true ->
    exists s bm,
      search a be b0 = Some (s, bm, b0) /\
      clamp a be s = clamp a be (value b0).

(** A call that returns, whatever its window and board. *)
Definition returns (search : Search) : Prop :=
  forall a be b0, search a be b0 <> None.

(** [s1] is no better than [s2] for the side to move. *)
Definition no_better (bot_turn : bool) (s1 s2 : Score) : Prop :=
  if bot_turn then slt s2 s1 = false else slt s1 s2 = false.

(** [s1] is strictly worse than [s2] for the side to move. *)
Definition worse (bot_turn : bool) (s1 s2 : Score) : Prop :=
  if bot_turn then slt s1 s2 = true else slt s2 s1 = true.

End Engine.

(** ** A scripted position

    A finite game written out as its tree: each node gives the side to move,
    the piece map and the positions after each legal move.  The board is the
    stack of nodes from the current one down to the root, a move is the
    index of a child. *)

#[warnings="-register-all"] Inductive GameTree :=
  Node (to_move : Color) (pieces : list (Square * Piece))
       (children : list GameTree).

Definition ScriptBoard := list GameTree.

Definition script_children (b : ScriptBoard) : list GameTree :=
  match b with
  | Node _ _ cs :: _ => cs
  | [] => []
  end.

Definition script_legal_moves (b : ScriptBoard) : list nat :=
  seq 0 (length (script_children b)).

Definition script_push (b : ScriptBoard) (m : nat) : ScriptBoard :=
  match b with
  | [] => []
  | _ :: _ => nth m (script_children b) (Node WHITE [] []) :: b
  end.

Definition script_pop (b : ScriptBoard) : ScriptBoard := tl b.

Definition script_turn (b : ScriptBoard) : Color :=
  match b with
  | Node t _ _ :: _ => t
  | [] => WHITE
  end.

Definition script_piece_map (b : ScriptBoard) : list (Square * Piece) :=
  match b with
  | Node _ ps _ :: _ => ps
  | [] => []
  end.

#[export] Instance script_position : Position ScriptBoard nat := {
  legal_moves := script_legal_moves;
  push := script_push;
  pop := script_pop;
  turn := script_turn;
  piece_map := script_piece_map
}.

(** A position with [w] white and [k] black pawns on it. *)
Definition pawn_squares (w k : nat) : list (Square * Piece) :=
  map (fun i => (Z.of_nat i, mkPiece PAWN WHITE)) (seq 0 w) ++
  map (fun i => (Z.of_nat i, mkPiece PAWN BLACK)) (seq w k).

(** A small game: white (the engine) to move at the root, two replies to
    each of its three moves, one of which ends the game at once. *)
Definition demo_tree : GameTree :=
  Node WHITE (pawn_squares 2 2)
    [ Node BLACK (pawn_squares 2 2)
        [ Node WHITE (pawn_squares 3 2) [Node BLACK [] []];
          Node WHITE (pawn_squares 2 1) [Node BLACK [] []] ];
      Node BLACK (pawn_squares 2 1)
        [ Node WHITE (pawn_squares 1 1) [Node BLACK [] []];
          Node WHITE (pawn_squares 5 1) [Node BLACK [] []] ];
      Node BLACK (pawn_squares 2 2)
        [ Node WHITE (pawn_squares 3 2) [Node BLACK [] []];
          Node WHITE (pawn_squares 2 1) [Node BLACK [] []] ] ].

Definition demo_board : ScriptBoard := [demo_tree].

(** A finished game: black, to move, has no legal move. *)
Definition finished_board : ScriptBoard :=
  [Node BLACK (pawn_squares 2 1) []].

(** White to move with two legal moves; the second leaves black without a
    legal move. *)
Definition mate_choice_board : ScriptBoard :=
  [Node WHITE (pawn_squares 2 1)
     [ Node BLACK (pawn_squares 3 0) [Node WHITE (pawn_squares 3 0) []];
       Node BLACK (pawn_squares 1 1) [] ]].



(** * The rest of the program *)

Section Helpers.

Context {Board Move : Type} `{P : Position Board Move}.
Variable color : Color.

(** ** [Engine.maximize] and [Engine.minimize]

    The two unused helpers of [chess_engine.py]: plain minimax, without
    window and without the test for a position that has no legal move. *)

(** The loop of [maximize]: push, recurse, [if score > max: max = score],
    pop; [child b] is the call [self.minimize(depth - 1)] run on [b]. *)
Fixpoint maximize_loop (child : Board -> option (Score * Board))
    (moves : list Move) (max : Score) (b : Board) : option (Score * Board) :=
  match moves with
  | [] => Some (max, b)
  | move :: rest =>
      match child (push b move) with
      | None => None
      | Some (score, b2) =>
          let max' := if slt max score then score else max in
          maximize_loop child rest max' (pop b2)
      end
  end.

(** The loop of [minimize]. *)
Fixpoint minimize_loop (child : Board -> option (Score * Board))
    (moves : list Move) (min : Score) (b : Board) : option (Score * Board) :=
  match moves with
  | [] => Some (min, b)
  | move :: rest =>
      match child (push b move) with
      | None => None
      | Some (score, b2) =>
          let min' := if slt score min then score else min in
          minimize_loop child rest min' (pop b2)
      end
  end.

(** [Engine.maximize] and [Engine.minimize], with the bound [fuel] on the
    nested calls as for [minimax]. *)
Fixpoint maximize (fuel : nat) (depth : Z) (b : Board)
  : option (Score * Board) :=
  match fuel with
  | O => None
  | S fuel' =>
      if depth =? 0 then Some (Fin (evaluate_board color b), b)
      else maximize_loop (fun b' => minimize fuel' (depth - 1) b')
                         (legal_moves b) NegInf b
  end
with minimize (fuel : nat) (depth : Z) (b : Board)
  : option (Score * Board) :=
  match fuel with
  | O => None
  | S fuel' =>
      if depth =? 0 then Some (Fin (evaluate_board color b), b)
      else minimize_loop (fun b' => maximize fuel' (depth - 1) b')
                         (legal_moves b) PosInf b
  end.

(** Every position reached in fewer than [n] plies from [b] has a legal
    move. *)
Fixpoint has_moves_within (n : nat) (b : Board) : bool :=
  match n with
  | O => true
  | S n' =>
      match legal_moves b with
      | [] => false
      | moves => forallb (fun m => has_moves_within n' (push b m)) moves
      end
  end.

(** The position after playing the moves [line] from [b], one push each. *)
Definition play_line (b : Board) (line : list Move) : Board :=
  fold_left push line b.

(** Every move of [line] is legal in the position it is played in. *)
Fixpoint legal_line (b : Board) (line : list Move) : Prop :=
  match line with
  | [] => True
  | m :: rest => In m (legal_moves b) /\ legal_line (push b m) rest
  end.

(** ** [Main.playEngineMove] of [play_chess.py] *)

(** What [playEngineMove] does to the board: it pushes the move that
    [minimax] returned, or it calls [push] with the [None] that [minimax]
    returned. *)
Inductive EngineMove : Type :=
| Pushed (b : Board)
| PushedNone (b : Board).

(** [Main.playEngineMove]: [Engine(self.board, maxDepth, color)], then
    [self.board.push(engine.minimax(maxDepth)[1])], the window and the flag
    [bot_turn] being the defaults of [minimax]. *)
Definition playEngineMove (fuel : nat) (maxDepth : Z) (b : Board)
  : option EngineMove :=
  match minimax color fuel maxDepth NegInf PosInf true b with
  | None => None
  | Some (_, Some move, b') => Some (Pushed (push b' move))
  | Some (_, None, b') => Some (PushedNone b')
  end.

End Helpers.

(** ** [Main.playHumanMove] of [play_chess.py] *)

(** What [playHumanMove] needs from the board besides [pop]. *)
Class Console (Board Move : Type) `{Position Board Move} := {
  (** [board.push_san(play)]: the board after the move written [play], or
      [None] when the text is no legal move and [push_san] raises, the
      board being as before *)
  push_san : Board -> string -> option Board;
  (** the move stack is empty, so that [board.pop()] raises *)
  pop_raises : Board -> bool
}.

(** The library's contract for the move stack: after a push there is a
    move to pop. *)
Definition PopAfterPush {Board Move} `{Console Board Move} : Prop :=
  forall (b : Board) (m : Move),
    In m (legal_moves b) -> pop_raises (push b m) = false.

Section Human.

Context {Board Move : Type} `{C : Console Board Move}.

(** [Main.playHumanMove].  [inputs] are the lines that [input] will
    return, in order; with none left [input] raises.  Whatever is raised
    inside the [try] is caught and answered by a fresh call; the printing
    is left out.  The result is the board and the lines not yet read. *)
Fixpoint playHumanMove (fuel : nat) (inputs : list string) (b : Board)
  : option (Board * list string) :=
  match fuel with
  | O => None
  | S fuel' =>
      match inputs with
      | [] => playHumanMove fuel' [] b
      | play :: rest =>
          if String.eqb play "undo" then
            if pop_raises b then playHumanMove fuel' rest b
            else
              let b1 := pop b in
              if pop_raises b1 then playHumanMove fuel' rest b1
              else playHumanMove fuel' rest (pop b1)
          else
            match push_san b play with
            | Some b' => Some (b', rest)
            | None => playHumanMove fuel' rest b
            end
      end
  end.

(** A line that [playHumanMove] on board [b] answers by asking again with
    the board unchanged. *)
Definition rejected (b : Board) (play : string) : Prop :=
  String.eqb play "undo" = false /\ push_san b play = None.

End Human.

(** The scripted position at the console: the moves of a node are written
    ["0"], ["1"], ... up to ["9"], and the stack can be popped down to the
    root. *)

Definition script_move_of_text (play : string) : option nat :=
  match play with
  | String c EmptyString =>
      let n := Ascii.nat_of_ascii c in
      if (48 <=? n)%nat && (n <=? 57)%nat then Some (n - 48)%nat else None
  | _ => None
  end.

Definition script_push_san (b : ScriptBoard) (play : string)
  : option ScriptBoard :=
  match script_move_of_text play with
  | Some m =>
      if (m <? List.length (script_children b))%nat then Some (script_push b m)
      else None
  | None => None
  end.

Definition script_pop_raises (b : ScriptBoard) : bool :=
  match b with
  | [] | [_] => true
  | _ :: _ :: _ => false
  end.

#[export] Instance script_console : Console ScriptBoard nat := {
  push_san := script_push_san;
  pop_raises := script_pop_raises
}.

(** * Proofs *)

(** ** The order on scores *)

Ltac score_cases :=
  repeat match goal with
         | s : Score |- _ => destruct s
         end;
  unfold no_better, worse, clamp, smax, smin, sge, slt in *; simpl in *;
  repeat match goal with
         | |- context [?x <? ?y] => destruct (Z.ltb_spec x y)
         | H : context [?x <? ?y] |- _ => destruct (Z.ltb_spec x y)
         end;
  simpl in *;
  try congruence; try lia;
  repeat match goal with
         | H : Fin _ = Fin _ |- _ => injection H as H
         end;
  try (f_equal; lia); try discriminate; auto.

Lemma slt_irrefl (a : Score) : slt a a = false.
Proof. score_cases. Qed.

Lemma slt_trans (a b c : Score) :
  slt a b = true -> slt b c = true -> slt a c = true.
Proof. intros; score_cases. Qed.

Lemma clamp_full_window (v : Score) : clamp NegInf PosInf v = v.
Proof. score_cases. Qed.

(** Facts about one iteration of the maximizing loop: the cutoff fires or
    not, with [s] the returned score and [x] the true value of the child. *)

Lemma max_cut a beta s x :
  slt a beta = true -> sge (smax a s) beta = true ->
  clamp a beta s = clamp a beta x ->
  slt x beta = false /\ slt s beta = false.
Proof. intros; split; score_cases. Qed.

Lemma max_go a beta s x :
  slt a beta = true -> sge (smax a s) beta = false ->
  clamp a beta s = clamp a beta x -> smax a s = smax a x.
Proof. intros; score_cases. Qed.

Lemma at_least_beta F acc x beta :
  slt F (smax acc x) = false -> slt x beta = false -> slt F beta = false.
Proof. intros; score_cases. Qed.

Lemma clamp_high a0 beta y :
  slt a0 beta = true -> slt y beta = false -> clamp a0 beta y = beta.
Proof. intros; score_cases. Qed.

Lemma smax_assoc a0 mv s : smax (smax a0 mv) s = smax a0 (smax mv s).
Proof. score_cases. Qed.

Lemma clamp_inside_max a0 beta mv acc :
  slt (smax a0 mv) beta = true -> smax a0 mv = smax a0 acc ->
  clamp a0 beta mv = clamp a0 beta acc.
Proof. intros; score_cases. Qed.

(** The same for the minimizing loop. *)

Lemma min_cut alpha be s x :
  slt alpha be = true -> sge alpha (smin be s) = true ->
  clamp alpha be s = clamp alpha be x ->
  slt alpha x = false /\ slt alpha s = false.
Proof. intros; split; score_cases. Qed.

Lemma min_go alpha be s x :
  slt alpha be = true -> sge alpha (smin be s) = false ->
  clamp alpha be s = clamp alpha be x -> smin be s = smin be x.
Proof. intros; score_cases. Qed.

Lemma at_most_alpha F acc x alpha :
  slt (smin acc x) F = false -> slt alpha x = false -> slt alpha F = false.
Proof. intros; score_cases. Qed.

Lemma clamp_low alpha b0 y :
  slt alpha b0 = true -> slt alpha y = false -> clamp alpha b0 y = alpha.
Proof. intros; score_cases. Qed.

Lemma smin_assoc b0 mv s : smin (smin b0 mv) s = smin b0 (smin mv s).
Proof. score_cases. Qed.

Lemma clamp_inside_min alpha b0 mv acc :
  slt alpha (smin b0 mv) = true -> smin b0 mv = smin b0 acc ->
  clamp alpha b0 mv = clamp alpha b0 acc.
Proof. intros; score_cases. Qed.

Lemma fold_left_smax_ge (l : list Score) :
  forall acc, slt (fold_left smax l acc) acc = false.
Proof.
  induction l as [|x l IH]; intros acc; simpl.
  - apply slt_irrefl.
  - specialize (IH (smax acc x)). revert IH.
    generalize (fold_left smax l (smax acc x)). intros F HF. score_cases.
Qed.

Lemma fold_left_smin_le (l : list Score) :
  forall acc, slt acc (fold_left smin l acc) = false.
Proof.
  induction l as [|x l IH]; intros acc; simpl.
  - apply slt_irrefl.
  - specialize (IH (smin acc x)). revert IH.
    generalize (fold_left smin l (smin acc x)). intros F HF. score_cases.
Qed.

Section EvaluatorFacts.

Context {Board Move : Type} `{P : Position Board Move}.
Variable color : Color.

(** ** The evaluator *)

Lemma fold_left_add_Zsum (f : Square -> Z) (l : list Square) (acc : Z) :
  fold_left (fun rv square => rv + f square) l acc = acc + Zsum (map f l).
Proof.
  revert acc; induction l as [|x l IH]; intros acc; simpl.
  - lia.
  - rewrite IH. lia.
Qed.

Lemma square_score_signed (b : Board) (square : Square) :
  square_score color b square =
  match lookup_square (piece_map b) square with
  | Some p => signed_value color p
  | None => 0
  end.
Proof.
  unfold square_score, piece_type_at, color_at, signed_value.
  destruct (lookup_square (piece_map b) square) as [[t c]|]; simpl.
  - destruct t, (Bool.eqb c color); reflexivity.
  - reflexivity.
Qed.

Lemma mate_cases (b : Board) :
  (legal_moves b = [] -> turn b = color -> mate color b = -39996) /\
  (legal_moves b = [] -> turn b <> color -> mate color b = 39996) /\
  (legal_moves b <> [] -> mate color b = 0).
Proof.
  unfold mate, legal_moves_count.
  destruct (legal_moves b) as [|m rest]; simpl; repeat split; intros;
    try congruence.
  - subst color. now rewrite eqb_reflx.
  - destruct (Bool.eqb (turn b) color) eqn:He; [|reflexivity].
    apply eqb_prop in He. contradiction.
Qed.

Lemma material_fold (b : Board) :
  fold_left (fun rv square => rv + square_score color b square)
            (map fst (piece_map b)) 0 = material color b.
Proof.
  rewrite fold_left_add_Zsum. unfold material. simpl.
  f_equal. apply map_ext. intros sq. apply square_score_signed.
Qed.

Lemma mate_terminal_bonus (b : Board) : mate color b = terminal_bonus color b.
Proof.
  unfold mate, terminal_bonus, legal_moves_count.
  destruct (legal_moves b); reflexivity.
Qed.

Lemma evaluate_board_split (b : Board) :
  evaluate_board color b = material color b + mate color b.
Proof. unfold evaluate_board. rewrite material_fold. reflexivity. Qed.

Lemma signed_value_bound (p : Piece) : Z.abs (signed_value color p) <= 80.
Proof.
  unfold signed_value. destruct p as [t c]; simpl.
  destruct t, (Bool.eqb c color); simpl; lia.
Qed.

Lemma Zsum_bound (k : Z) (l : list Z) :
  (forall x, In x l -> Z.abs x <= k) ->
  Z.abs (Zsum l) <= k * Z.of_nat (length l).
Proof.
  induction l as [|x l IH]; intros Hl.
  - simpl. lia.
  - assert (Hx : Z.abs x <= k) by (apply Hl; left; reflexivity).
    assert (Hr : Z.abs (Zsum l) <= k * Z.of_nat (length l))
      by (apply IH; intros y Hy; apply Hl; right; exact Hy).
    cbn [Zsum fold_right length]. fold (Zsum l).
    rewrite Nat2Z.inj_succ. lia.
Qed.

Lemma material_bound (b : Board) :
  Z.abs (material color b) <= 80 * Z.of_nat (length (piece_map b)).
Proof.
  unfold material.
  set (f := fun square : Square => _).
  replace (length (piece_map b)) with (length (map f (map fst (piece_map b))))
    by (now rewrite !length_map).
  apply Zsum_bound. intros x Hx.
  apply in_map_iff in Hx. destruct Hx as [sq [<- _]]. subst f; simpl.
  destruct (lookup_square (piece_map b) sq).
  - apply signed_value_bound.
  - simpl. lia.
Qed.

Lemma signed_value_flip (p : Piece) :
  signed_value color p = - signed_value (negb color) p.
Proof.
  unfold signed_value. destruct p as [t c]; simpl.
  destruct c, color; simpl; lia.
Qed.

Lemma Zsum_opp (A : Type) (f g : A -> Z) (l : list A) :
  (forall x, f x = - g x) -> Zsum (map f l) = - Zsum (map g l).
Proof.
  intros Hfg. induction l as [|x l IH]; simpl.
  - reflexivity.
  - rewrite Hfg. fold (Zsum (map f l)) (Zsum (map g l)). lia.
Qed.

Lemma material_flip (b : Board) :
  material color b = - material (negb color) b.
Proof.
  unfold material. apply Zsum_opp. intros sq.
  destruct (lookup_square (piece_map b) sq).
  - apply signed_value_flip.
  - reflexivity.
Qed.

Lemma mate_flip (b : Board) : mate color b = - mate (negb color) b.
Proof.
  unfold mate. destruct (legal_moves_count b =? 0); [|reflexivity].
  destruct (turn b), color; reflexivity.
Qed.

End EvaluatorFacts.

Section SearchFacts.

Context {Board Move : Type} `{P : Position Board Move}.
Variable color : Color.

(** ** The loops, one iteration at a time *)

Lemma max_loop_cons (search : Search) move rest max_value best_move alpha beta b :
  max_loop search (move :: rest) max_value best_move alpha beta b =
  match search alpha beta (push b move) with
  | None => None
  | Some (score, _, b2) =>
      let max_value' := if slt max_value score then score else max_value in
      let best_move' := if slt max_value score then Some move else best_move in
      if sge (smax alpha score) beta then Some (max_value', best_move', pop b2)
      else max_loop search rest max_value' best_move' (smax alpha score) beta
                    (pop b2)
  end.
Proof.
  simpl. destruct (search alpha beta (push b move)) as [[[score bm] b2]|];
    [|reflexivity].
  destruct (slt max_value score); reflexivity.
Qed.

Lemma min_loop_cons (search : Search) move rest min_value best_move alpha beta b :
  min_loop search (move :: rest) min_value best_move alpha beta b =
  match search alpha beta (push b move) with
  | None => None
  | Some (score, _, b2) =>
      let min_value' := if slt score min_value then score else min_value in
      let best_move' := if slt score min_value then Some move else best_move in
      if sge alpha (smin beta score) then Some (min_value', best_move', pop b2)
      else min_loop search rest min_value' best_move' alpha (smin beta score)
                    (pop b2)
  end.
Proof.
  simpl. destruct (search alpha beta (push b move)) as [[[score bm] b2]|];
    [|reflexivity].
  destruct (slt score min_value); reflexivity.
Qed.

Lemma minimax_S fuel depth alpha beta bot_turn (b : Board) :
  minimax color (S fuel) depth alpha beta bot_turn b =
  if (depth =? 0) || (legal_moves_count b =? 0) then
    Some (Fin (evaluate_board color b), None, b)
  else if bot_turn then
    max_loop (fun a be b' => minimax color fuel (depth - 1) a be false b')
             (legal_moves b) NegInf None alpha beta b
  else
    min_loop (fun a be b' => minimax color fuel (depth - 1) a be true b')
             (legal_moves b) PosInf None alpha beta b.
Proof. reflexivity. Qed.

Lemma count_zero_iff (b : Board) :
  (legal_moves_count b =? 0) = true <-> legal_moves b = [].
Proof.
  unfold legal_moves_count. rewrite Z.eqb_eq.
  destruct (legal_moves b); simpl; split; intros; try reflexivity;
    try discriminate; lia.
Qed.

Lemma leaf_test_true depth (b : Board) :
  depth = 0 \/ legal_moves b = [] ->
  (depth =? 0) || (legal_moves_count b =? 0) = true.
Proof.
  intros [-> | Hb].
  - reflexivity.
  - apply orb_true_iff. right. now apply count_zero_iff.
Qed.

Lemma leaf_test_false depth (b : Board) :
  (depth =? 0) || (legal_moves_count b =? 0) = false ->
  depth <> 0 /\ legal_moves b <> [].
Proof.
  intros H. apply orb_false_iff in H. destruct H as [Hd Hc]. split.
  - now apply Z.eqb_neq.
  - intros Hb. apply count_zero_iff in Hb. congruence.
Qed.

Lemma minimax_leaf fuel depth alpha beta bot_turn (b : Board) :
  depth = 0 \/ legal_moves b = [] ->
  minimax color (S fuel) depth alpha beta bot_turn b =
  Some (Fin (evaluate_board color b), None, b).
Proof.
  intros H. rewrite minimax_S, (leaf_test_true _ _ H). reflexivity.
Qed.

(** ** Every push is undone *)

Lemma max_loop_board (search : Search) (b : Board) :
  keeps_board search ->
  forall moves, (forall m, In m moves -> pop (push b m) = b) ->
  forall max_value best_move alpha beta r b',
    max_loop search moves max_value best_move alpha beta b = Some (r, b') ->
    b' = b.
Proof.
  intros Hs moves. induction moves as [|m rest IH];
    intros Hpop max_value best_move alpha beta r b' Hrun.
  - simpl in Hrun. congruence.
  - rewrite max_loop_cons in Hrun.
    destruct (search alpha beta (push b m)) as [[[score bm] b2]|] eqn:Hcall;
      [|discriminate].
    apply Hs in Hcall. subst b2.
    rewrite (Hpop m (or_introl eq_refl)) in Hrun. cbv zeta in Hrun.
    destruct (sge (smax alpha score) beta).
    + congruence.
    + eapply IH; [|exact Hrun]. intros m' Hm'. apply Hpop. now right.
Qed.

Lemma min_loop_board (search : Search) (b : Board) :
  keeps_board search ->
  forall moves, (forall m, In m moves -> pop (push b m) = b) ->
  forall min_value best_move alpha beta r b',
    min_loop search moves min_value best_move alpha beta b = Some (r, b') ->
    b' = b.
Proof.
  intros Hs moves. induction moves as [|m rest IH];
    intros Hpop min_value best_move alpha beta r b' Hrun.
  - simpl in Hrun. congruence.
  - rewrite min_loop_cons in Hrun.
    destruct (search alpha beta (push b m)) as [[[score bm] b2]|] eqn:Hcall;
      [|discriminate].
    apply Hs in Hcall. subst b2.
    rewrite (Hpop m (or_introl eq_refl)) in Hrun. cbv zeta in Hrun.
    destruct (sge alpha (smin beta score)).
    + congruence.
    + eapply IH; [|exact Hrun]. intros m' Hm'. apply Hpop. now right.
Qed.

Lemma minimax_keeps_board (HSD : StackDiscipline) fuel :
  forall depth bot_turn,
    keeps_board (fun a be b => minimax color fuel depth a be bot_turn b).
Proof.
  induction fuel as [|fuel IH]; intros depth bot_turn a be b0 r b2 Hrun.
  - discriminate.
  - rewrite minimax_S in Hrun.
    destruct ((depth =? 0) || (legal_moves_count b0 =? 0)).
    + congruence.
    + destruct bot_turn.
      * eapply max_loop_board; [apply IH| |exact Hrun].
        intros m Hm. now apply HSD.
      * eapply min_loop_board; [apply IH| |exact Hrun].
        intros m Hm. now apply HSD.
Qed.

(** ** The search returns *)

Lemma max_loop_returns (search : Search) :
  returns search ->
  forall moves max_value best_move alpha beta b,
    max_loop search moves max_value best_move alpha beta b <> None.
Proof.
  intros Hs moves. induction moves as [|m rest IH];
    intros max_value best_move alpha beta b.
  - simpl. discriminate.
  - rewrite max_loop_cons.
    destruct (search alpha beta (push b m)) as [[[score bm] b2]|] eqn:Hcall.
    + cbv zeta. destruct (sge (smax alpha score) beta);
        [discriminate|apply IH].
    + now apply Hs in Hcall.
Qed.

Lemma min_loop_returns (search : Search) :
  returns search ->
  forall moves min_value best_move alpha beta b,
    min_loop search moves min_value best_move alpha beta b <> None.
Proof.
  intros Hs moves. induction moves as [|m rest IH];
    intros min_value best_move alpha beta b.
  - simpl. discriminate.
  - rewrite min_loop_cons.
    destruct (search alpha beta (push b m)) as [[[score bm] b2]|] eqn:Hcall.
    + cbv zeta. destruct (sge alpha (smin beta score));
        [discriminate|apply IH].
    + now apply Hs in Hcall.
Qed.

Lemma minimax_returns fuel :
  forall depth bot_turn,
    0 <= depth -> (Z.to_nat depth < fuel)%nat ->
    returns (fun a be b => minimax color fuel depth a be bot_turn b).
Proof.
  induction fuel as [|fuel IH]; intros depth bot_turn Hd Hf a be b0.
  - lia.
  - rewrite minimax_S.
    destruct ((depth =? 0) || (legal_moves_count b0 =? 0)) eqn:Hleaf.
    + discriminate.
    + apply leaf_test_false in Hleaf. destruct Hleaf as [Hd0 _].
      destruct bot_turn.
      * apply max_loop_returns. apply IH; lia.
      * apply min_loop_returns. apply IH; lia.
Qed.

(** ** The moves a loop examines *)

Lemma max_examined_prefix (search : Search) :
  forall moves alpha beta b,
    exists rest, moves = map fst (max_examined search moves alpha beta b) ++ rest.
Proof.
  induction moves as [|m moves IH]; intros alpha beta b; simpl.
  - now exists [].
  - destruct (search alpha beta (push b m)) as [[[score bm] b2]|].
    + destruct (sge (smax alpha score) beta); simpl.
      * now exists moves.
      * destruct (IH (smax alpha score) beta (pop b2)) as [rest Hrest].
        exists rest. now rewrite <- Hrest.
    + now exists (m :: moves).
Qed.

Lemma min_examined_prefix (search : Search) :
  forall moves alpha beta b,
    exists rest, moves = map fst (min_examined search moves alpha beta b) ++ rest.
Proof.
  induction moves as [|m moves IH]; intros alpha beta b; simpl.
  - now exists [].
  - destruct (search alpha beta (push b m)) as [[[score bm] b2]|].
    + destruct (sge alpha (smin beta score)); simpl.
      * now exists moves.
      * destruct (IH alpha (smin beta score) (pop b2)) as [rest Hrest].
        exists rest. now rewrite <- Hrest.
    + now exists (m :: moves).
Qed.

Lemma max_examined_from_search (search : Search) :
  forall moves alpha beta b ms,
    In ms (max_examined search moves alpha beta b) ->
    exists a be b0 bm b2, search a be b0 = Some (snd ms, bm, b2).
Proof.
  induction moves as [|m moves IH]; intros alpha beta b ms Hin; simpl in Hin.
  - contradiction.
  - destruct (search alpha beta (push b m)) as [[[score bm] b2]|] eqn:Hcall;
      [|contradiction].
    destruct Hin as [<- | Hin].
    + now exists alpha, beta, (push b m), bm, b2.
    + destruct (sge (smax alpha score) beta); [contradiction|].
      eapply IH; exact Hin.
Qed.

Lemma min_examined_from_search (search : Search) :
  forall moves alpha beta b ms,
    In ms (min_examined search moves alpha beta b) ->
    exists a be b0 bm b2, search a be b0 = Some (snd ms, bm, b2).
Proof.
  induction moves as [|m moves IH]; intros alpha beta b ms Hin; simpl in Hin.
  - contradiction.
  - destruct (search alpha beta (push b m)) as [[[score bm] b2]|] eqn:Hcall;
      [|contradiction].
    destruct Hin as [<- | Hin].
    + now exists alpha, beta, (push b m), bm, b2.
    + destruct (sge alpha (smin beta score)); [contradiction|].
      eapply IH; exact Hin.
Qed.

Lemma max_examined_first (search : Search) m rest mv bm alpha beta b r :
  max_loop search (m :: rest) mv bm alpha beta b = Some r ->
  exists s tl, max_examined search (m :: rest) alpha beta b = (m, s) :: tl.
Proof.
  rewrite max_loop_cons. simpl.
  destruct (search alpha beta (push b m)) as [[[score bm0] b2]|];
    [|discriminate].
  intros _. eauto.
Qed.

Lemma min_examined_first (search : Search) m rest mv bm alpha beta b r :
  min_loop search (m :: rest) mv bm alpha beta b = Some r ->
  exists s tl, min_examined search (m :: rest) alpha beta b = (m, s) :: tl.
Proof.
  rewrite min_loop_cons. simpl.
  destruct (search alpha beta (push b m)) as [[[score bm0] b2]|];
    [|discriminate].
  intros _. eauto.
Qed.

(** Where the loop's answer comes from: either nothing examined beat the
    value the loop started with, or the answer is the first examined move
    that reached the final value. *)
Lemma max_loop_examined (search : Search) :
  forall moves mv bm alpha beta b v bm' b',
    max_loop search moves mv bm alpha beta b = Some (v, bm', b') ->
    (bm' = bm /\ v = mv /\
     Forall (fun ms => slt mv (snd ms) = false)
            (max_examined search moves alpha beta b))
    \/
    (exists pre m post,
        max_examined search moves alpha beta b = pre ++ (m, v) :: post /\
        bm' = Some m /\ slt mv v = true /\
        Forall (fun ms => slt (snd ms) v = true) pre /\
        Forall (fun ms => slt v (snd ms) = false) post).
Proof.
  induction moves as [|m moves IH]; intros mv bm alpha beta b v bm' b' Hrun.
  - simpl in Hrun. injection Hrun as <- <- <-. left. simpl. auto.
  - rewrite max_loop_cons in Hrun. simpl.
    destruct (search alpha beta (push b m)) as [[[score bm0] b2]|];
      [|discriminate].
    cbv zeta in Hrun.
    destruct (sge (smax alpha score) beta).
    + injection Hrun as <- <- <-.
      destruct (slt mv score) eqn:Hlt.
      * right. exists [], m, []. simpl. auto.
      * left. auto.
    + apply IH in Hrun.
      destruct (slt mv score) eqn:Hlt.
      * right. destruct Hrun as [(-> & -> & Hall) | (pre & m' & post & Htr & -> & Hlt' & Hpre & Hpost)].
        -- exists [], m, (max_examined search moves (smax alpha score) beta (pop b2)).
           simpl. auto.
        -- exists ((m, score) :: pre), m', post. rewrite Htr. simpl.
           repeat split; auto. eapply slt_trans; eauto.
      * destruct Hrun as [(-> & -> & Hall) | (pre & m' & post & Htr & -> & Hlt' & Hpre & Hpost)].
        -- left. auto.
        -- right. exists ((m, score) :: pre), m', post. rewrite Htr. simpl.
           repeat split; auto. constructor; [|exact Hpre]. simpl.
           clear - Hlt Hlt'. score_cases.
Qed.

Lemma min_loop_examined (search : Search) :
  forall moves mv bm alpha beta b v bm' b',
    min_loop search moves mv bm alpha beta b = Some (v, bm', b') ->
    (bm' = bm /\ v = mv /\
     Forall (fun ms => slt (snd ms) mv = false)
            (min_examined search moves alpha beta b))
    \/
    (exists pre m post,
        min_examined search moves alpha beta b = pre ++ (m, v) :: post /\
        bm' = Some m /\ slt v mv = true /\
        Forall (fun ms => slt v (snd ms) = true) pre /\
        Forall (fun ms => slt (snd ms) v = false) post).
Proof.
  induction moves as [|m moves IH]; intros mv bm alpha beta b v bm' b' Hrun.
  - simpl in Hrun. injection Hrun as <- <- <-. left. simpl. auto.
  - rewrite min_loop_cons in Hrun. simpl.
    destruct (search alpha beta (push b m)) as [[[score bm0] b2]|];
      [|discriminate].
    cbv zeta in Hrun.
    destruct (sge alpha (smin beta score)).
    + injection Hrun as <- <- <-.
      destruct (slt score mv) eqn:Hlt.
      * right. exists [], m, []. simpl. auto.
      * left. auto.
    + apply IH in Hrun.
      destruct (slt score mv) eqn:Hlt.
      * right. destruct Hrun as [(-> & -> & Hall) | (pre & m' & post & Htr & -> & Hlt' & Hpre & Hpost)].
        -- exists [], m, (min_examined search moves alpha (smin beta score) (pop b2)).
           simpl. auto.
        -- exists ((m, score) :: pre), m', post. rewrite Htr. simpl.
           repeat split; auto. eapply slt_trans; eauto.
      * destruct Hrun as [(-> & -> & Hall) | (pre & m' & post & Htr & -> & Hlt' & Hpre & Hpost)].
        -- left. auto.
        -- right. exists ((m, score) :: pre), m', post. rewrite Htr. simpl.
           repeat split; auto. constructor; [|exact Hpre]. simpl.
           clear - Hlt Hlt'. score_cases.
Qed.

(** ** Finite scores and the best move of a node *)

(** Started from [-inf] with a first move whose score is finite, the
    maximizing loop cannot keep its starting value. *)
Lemma max_loop_from_neg_inf (search : Search) m rest alpha beta b v bm b' :
  (forall a be b0 s bm0 b2,
      search a be b0 = Some (s, bm0, b2) -> exists q, s = Fin q) ->
  max_loop search (m :: rest) NegInf None alpha beta b = Some (v, bm, b') ->
  exists pre m' post,
    max_examined search (m :: rest) alpha beta b = pre ++ (m', v) :: post /\
    bm = Some m' /\
    Forall (fun ms => slt (snd ms) v = true) pre /\
    Forall (fun ms => slt v (snd ms) = false) post.
Proof.
  intros Hfin Hrun.
  destruct (max_examined_first _ _ _ _ _ _ _ _ _ Hrun) as (s & tl & Htr).
  destruct (max_loop_examined _ _ _ _ _ _ _ _ _ _ Hrun)
    as [(_ & _ & Hall) | (pre & m' & post & Hsplit & Hbm & _ & Hpre & Hpost)].
  - exfalso. rewrite Htr in Hall. inversion Hall as [|? ? Hs _]; subst.
    assert (Hin : In (m, s) (max_examined search (m :: rest) alpha beta b))
      by (rewrite Htr; now left).
    apply max_examined_from_search in Hin.
    destruct Hin as (a & be & b0 & bm0 & b2 & Hcall).
    apply Hfin in Hcall. destruct Hcall as [q Hq]. simpl in Hq, Hs.
    rewrite Hq in Hs. discriminate.
  - exists pre, m', post. auto.
Qed.

Lemma min_loop_from_pos_inf (search : Search) m rest alpha beta b v bm b' :
  (forall a be b0 s bm0 b2,
      search a be b0 = Some (s, bm0, b2) -> exists q, s = Fin q) ->
  min_loop search (m :: rest) PosInf None alpha beta b = Some (v, bm, b') ->
  exists pre m' post,
    min_examined search (m :: rest) alpha beta b = pre ++ (m', v) :: post /\
    bm = Some m' /\
    Forall (fun ms => slt v (snd ms) = true) pre /\
    Forall (fun ms => slt (snd ms) v = false) post.
Proof.
  intros Hfin Hrun.
  destruct (min_examined_first _ _ _ _ _ _ _ _ _ Hrun) as (s & tl & Htr).
  destruct (min_loop_examined _ _ _ _ _ _ _ _ _ _ Hrun)
    as [(_ & _ & Hall) | (pre & m' & post & Hsplit & Hbm & _ & Hpre & Hpost)].
  - exfalso. rewrite Htr in Hall. inversion Hall as [|? ? Hs _]; subst.
    assert (Hin : In (m, s) (min_examined search (m :: rest) alpha beta b))
      by (rewrite Htr; now left).
    apply min_examined_from_search in Hin.
    destruct Hin as (a & be & b0 & bm0 & b2 & Hcall).
    apply Hfin in Hcall. destruct Hcall as [q Hq]. simpl in Hq, Hs.
    rewrite Hq in Hs. discriminate.
  - exists pre, m', post. auto.
Qed.

Lemma minimax_fin fuel :
  forall depth alpha beta bot_turn (b : Board) v bm b',
    minimax color fuel depth alpha beta bot_turn b = Some (v, bm, b') ->
    exists q, v = Fin q.
Proof.
  induction fuel as [|fuel IH]; intros depth alpha beta bot_turn b v bm b' Hrun.
  - discriminate.
  - rewrite minimax_S in Hrun.
    destruct ((depth =? 0) || (legal_moves_count b =? 0)) eqn:Hleaf.
    + injection Hrun as <- _ _. eauto.
    + apply leaf_test_false in Hleaf. destruct Hleaf as [_ Hmoves].
      destruct (legal_moves b) as [|m rest]; [congruence|].
      destruct bot_turn.
      * apply max_loop_from_neg_inf in Hrun.
        -- destruct Hrun as (pre & m' & post & Htr & _).
           assert (Hin : In (m', v)
                     (max_examined
                        (fun a be b' => minimax color fuel (depth - 1) a be false b')
                        (m :: rest) alpha beta b))
             by (rewrite Htr; apply in_elt).
           apply max_examined_from_search in Hin.
           destruct Hin as (a & be & b0 & bm0 & b2 & Hcall).
           eapply IH; exact Hcall.
        -- intros a be b0 s bm0 b2 Hcall. eapply IH; exact Hcall.
      * apply min_loop_from_pos_inf in Hrun.
        -- destruct Hrun as (pre & m' & post & Htr & _).
           assert (Hin : In (m', v)
                     (min_examined
                        (fun a be b' => minimax color fuel (depth - 1) a be true b')
                        (m :: rest) alpha beta b))
             by (rewrite Htr; apply in_elt).
           apply min_examined_from_search in Hin.
           destruct Hin as (a & be & b0 & bm0 & b2 & Hcall).
           eapply IH; exact Hcall.
        -- intros a be b0 s bm0 b2 Hcall. eapply IH; exact Hcall.
Qed.

(** At a node that is not a leaf, the answer is the first examined move
    whose score is the returned one: the moves before it are strictly worse
    for the side to move, the moves after it are no better. *)
Lemma minimax_node fuel depth alpha beta bot_turn (b : Board) v bm b' :
  minimax color (S fuel) depth alpha beta bot_turn b = Some (v, bm, b') ->
  (depth =? 0) || (legal_moves_count b =? 0) = false ->
  exists pre m post,
    examined color fuel depth alpha beta bot_turn b = pre ++ (m, v) :: post /\
    bm = Some m /\
    Forall (fun ms => worse bot_turn (snd ms) v) pre /\
    Forall (fun ms => no_better bot_turn (snd ms) v) post.
Proof.
  intros Hrun Hleaf. rewrite minimax_S in Hrun. unfold examined.
  rewrite Hleaf in *.
  apply leaf_test_false in Hleaf. destruct Hleaf as [_ Hmoves].
  destruct (legal_moves b) as [|m rest]; [congruence|].
  destruct bot_turn.
  - apply max_loop_from_neg_inf in Hrun; [exact Hrun|].
    intros a be b0 s bm0 b2 Hcall. eapply minimax_fin; exact Hcall.
  - apply min_loop_from_pos_inf in Hrun; [exact Hrun|].
    intros a be b0 s bm0 b2 Hcall. eapply minimax_fin; exact Hcall.
Qed.

Lemma examined_prefix fuel depth alpha beta bot_turn (b : Board) :
  exists rest,
    legal_moves b =
    map fst (examined color fuel depth alpha beta bot_turn b) ++ rest.
Proof.
  unfold examined.
  destruct ((depth =? 0) || (legal_moves_count b =? 0)).
  - now exists (legal_moves b).
  - destruct bot_turn.
    + apply max_examined_prefix.
    + apply min_examined_prefix.
Qed.

(** ** Alpha-beta against the exhaustive search *)

Lemma max_loop_sound (search : Search) (value : Board -> Score) (b : Board) :
  agrees search value ->
  forall moves, (forall m, In m moves -> pop (push b m) = b) ->
  forall mv bm a acc alpha0 beta,
    slt a beta = true -> a = smax alpha0 mv -> a = smax alpha0 acc ->
    exists v bm',
      max_loop search moves mv bm a beta b = Some (v, bm', b) /\
      clamp alpha0 beta v =
      clamp alpha0 beta
            (fold_left smax (map (fun m => value (push b m)) moves) acc).
Proof.
  intros Hs moves. induction moves as [|m rest IH];
    intros Hpop mv bm a acc alpha0 beta Hlt Hmv Hacc.
  - exists mv, bm. split; [reflexivity|]. simpl.
    apply clamp_inside_max; congruence.
  - rewrite max_loop_cons.
    destruct (Hs a beta (push b m) Hlt) as (s & bm0 & Hcall & Hclamp).
    rewrite Hcall, (Hpop m (or_introl eq_refl)). cbv zeta.
    cbn [map fold_left].
    set (x := value (push b m)) in *.
    assert (Hmv' : (if slt mv s then s else mv) = smax mv s) by reflexivity.
    rewrite !Hmv'.
    assert (Ha0 : slt alpha0 beta = true)
      by (clear - Hlt Hmv; subst a; score_cases).
    destruct (sge (smax a s) beta) eqn:Hcut.
    + eexists _, _. split; [reflexivity|].
      destruct (max_cut _ _ _ _ Hlt Hcut Hclamp) as [Hx Hsb].
      rewrite (clamp_high alpha0 beta (smax mv s)); auto.
      * symmetry. apply clamp_high; auto.
        eapply at_least_beta; [apply fold_left_smax_ge|exact Hx].
      * clear - Hsb. score_cases.
    + apply IH.
      * intros m' Hm'. apply Hpop. now right.
      * clear - Hcut. unfold sge in Hcut. now apply negb_false_iff in Hcut.
      * subst a. apply smax_assoc.
      * rewrite (max_go _ _ _ _ Hlt Hcut Hclamp). rewrite Hacc.
        apply smax_assoc.
Qed.

Lemma min_loop_sound (search : Search) (value : Board -> Score) (b : Board) :
  agrees search value ->
  forall moves, (forall m, In m moves -> pop (push b m) = b) ->
  forall mv bm be acc alpha beta0,
    slt alpha be = true -> be = smin beta0 mv -> be = smin beta0 acc ->
    exists v bm',
      min_loop search moves mv bm alpha be b = Some (v, bm', b) /\
      clamp alpha beta0 v =
      clamp alpha beta0
            (fold_left smin (map (fun m => value (push b m)) moves) acc).
Proof.
  intros Hs moves. induction moves as [|m rest IH];
    intros Hpop mv bm be acc alpha beta0 Hlt Hmv Hacc.
  - exists mv, bm. split; [reflexivity|]. simpl.
    apply clamp_inside_min; congruence.
  - rewrite min_loop_cons.
    destruct (Hs alpha be (push b m) Hlt) as (s & bm0 & Hcall & Hclamp).
    rewrite Hcall, (Hpop m (or_introl eq_refl)). cbv zeta.
    cbn [map fold_left].
    set (x := value (push b m)) in *.
    assert (Hmv' : (if slt s mv then s else mv) = smin mv s) by reflexivity.
    rewrite !Hmv'.
    assert (Hb0 : slt alpha beta0 = true)
      by (clear - Hlt Hmv; subst be; score_cases).
    destruct (sge alpha (smin be s)) eqn:Hcut.
    + eexists _, _. split; [reflexivity|].
      destruct (min_cut _ _ _ _ Hlt Hcut Hclamp) as [Hx Hsb].
      rewrite (clamp_low alpha beta0 (smin mv s)); auto.
      * symmetry. apply clamp_low; auto.
        eapply at_most_alpha; [apply fold_left_smin_le|exact Hx].
      * clear - Hsb. score_cases.
    + apply IH.
      * intros m' Hm'. apply Hpop. now right.
      * clear - Hcut. unfold sge in Hcut. now apply negb_false_iff in Hcut.
      * subst be. apply smin_assoc.
      * rewrite (min_go _ _ _ _ Hlt Hcut Hclamp). rewrite Hacc.
        apply smin_assoc.
Qed.

Lemma exhaustive_leaf depth bot_turn (b : Board) :
  depth = O \/ legal_moves b = [] ->
  exhaustive color depth bot_turn b = Fin (evaluate_board color b).
Proof.
  intros [-> | Hb].
  - reflexivity.
  - destruct depth; simpl; [reflexivity|]. now rewrite Hb.
Qed.

Lemma exhaustive_node d bot_turn (b : Board) :
  legal_moves b <> [] ->
  exhaustive color (S d) bot_turn b =
  if bot_turn then
    fold_left smax
      (map (fun m => exhaustive color d false (push b m)) (legal_moves b)) NegInf
  else
    fold_left smin
      (map (fun m => exhaustive color d true (push b m)) (legal_moves b)) PosInf.
Proof.
  intros Hb. cbn [exhaustive].
  destruct (legal_moves b); [congruence|reflexivity].
Qed.

Lemma minimax_agrees (HSD : StackDiscipline) fuel :
  forall depth bot_turn,
    0 <= depth -> (Z.to_nat depth < fuel)%nat ->
    agrees (fun a be b => minimax color fuel depth a be bot_turn b)
           (exhaustive color (Z.to_nat depth) bot_turn).
Proof.
  induction fuel as [|fuel IH]; intros depth bot_turn Hd Hf a be b0 Hlt.
  - lia.
  - rewrite minimax_S.
    destruct ((depth =? 0) || (legal_moves_count b0 =? 0)) eqn:Hleaf.
    + exists (Fin (evaluate_board color b0)), None. split; [reflexivity|].
      rewrite exhaustive_leaf; [reflexivity|].
      apply orb_true_iff in Hleaf. destruct Hleaf as [H0 | Hc].
      * left. apply Z.eqb_eq in H0. subst depth. reflexivity.
      * right. now apply count_zero_iff.
    + apply leaf_test_false in Hleaf. destruct Hleaf as [Hd0 Hmoves].
      assert (Hsucc : Z.to_nat depth = S (Z.to_nat (depth - 1))) by lia.
      rewrite Hsucc, (exhaustive_node _ _ _ Hmoves).
      assert (Hpop : forall m, In m (legal_moves b0) -> pop (push b0 m) = b0)
        by (intros m Hm; now apply HSD).
      destruct bot_turn.
      * apply max_loop_sound; auto; try (clear; now score_cases).
        apply IH; lia.
      * apply min_loop_sound; auto; try (clear; now score_cases).
        apply IH; lia.
Qed.

End SearchFacts.

(** ** The scripted position obeys the library's contract *)

Lemma script_stack_discipline : @StackDiscipline _ _ script_position.
Proof.
  intros b m Hin. destruct b as [|t st].
  - contradiction.
  - reflexivity.
Qed.



(** * The specification, claim by claim *)

Section Specification.

Context {Board Move : Type} `{P : Position Board Move}.
Variable color : Color.

(** C1.  Called with the full window [(-inf, +inf)] at any depth [>= 0],
    [minimax] returns exactly the value of the unpruned, exhaustive minimax
    search of the same tree to the same depth with [evaluate_board] at the
    leaves (and leaves the board as it was): the cutoffs never change the
    returned score. *)
Theorem alpha_beta_equals_exhaustive (HSD : StackDiscipline)
    (fuel : nat) (depth : Z) (bot_turn : bool) (b : Board) :
  0 <= depth -> (Z.to_nat depth < fuel)%nat ->
  exists best_move,
    minimax color fuel depth NegInf PosInf bot_turn b =
    Some (exhaustive color (Z.to_nat depth) bot_turn b, best_move, b).
Proof.
  intros Hd Hf.
  destruct (minimax_agrees color HSD fuel depth bot_turn Hd Hf
                           NegInf PosInf b eq_refl) as (s & bm & Hrun & Hs).
  rewrite !clamp_full_window in Hs. subst s. now exists bm.
Qed.

(** C2.  [evaluate_board] is the sum over the occupied squares of the signed
    piece value (pawn 1, knight 3, bishop 3.25, rook 5, queen 9, king 20,
    negated for a piece that is not of the engine's colour) plus the
    terminal bonus: -9999 with no legal move and the engine to move, +9999
    with no legal move and the opponent to move, 0 when a legal move
    exists. *)
Theorem evaluate_board_material_and_bonus (b : Board) :
  evaluate_board color b = material color b + terminal_bonus color b /\
  (legal_moves b = [] -> turn b = color ->
   evaluate_board color b = material color b - 39996) /\
  (legal_moves b = [] -> turn b <> color ->
   evaluate_board color b = material color b + 39996) /\
  (legal_moves b <> [] -> evaluate_board color b = material color b) /\
  (pawns (piece_value PAWN) == 1)%Q /\
  (pawns (piece_value KNIGHT) == 3)%Q /\
  (pawns (piece_value BISHOP) == 3.25)%Q /\
  (pawns (piece_value ROOK) == 5)%Q /\
  (pawns (piece_value QUEEN) == 9)%Q /\
  (pawns (piece_value KING) == 20)%Q /\
  (pawns 39996 == 9999)%Q.
Proof.
  destruct (mate_cases color b) as (Hown & Hopp & Hnone).
  split; [rewrite evaluate_board_split, mate_terminal_bonus; reflexivity|].
  split; [intros Hb Ht; rewrite evaluate_board_split, Hown; auto; lia|].
  split; [intros Hb Ht; rewrite evaluate_board_split, Hopp; auto|].
  split; [intros Hb; rewrite evaluate_board_split, Hnone; auto; lia|].
  repeat split; reflexivity.
Qed.

(** C3.  With [depth == 0], and at any depth on a position without legal
    moves, [minimax] returns [(evaluate_board(), None)]; one call frame is
    enough (no recursion), no move is examined and the board is untouched. *)
Theorem minimax_leaf_result (fuel : nat) (depth : Z) (alpha beta : Score)
    (bot_turn : bool) (b : Board) :
  depth = 0 \/ legal_moves b = [] ->
  minimax color 1 depth alpha beta bot_turn b =
    Some (Fin (evaluate_board color b), None, b) /\
  minimax color (S fuel) depth alpha beta bot_turn b =
    Some (Fin (evaluate_board color b), None, b) /\
  examined color fuel depth alpha beta bot_turn b = [].
Proof.
  intros H. repeat split.
  - now apply minimax_leaf.
  - now apply minimax_leaf.
  - unfold examined. now rewrite (leaf_test_true _ _ H).
Qed.

(** C4.  Whenever [minimax] returns, at any depth, with any window and in
    both the maximizing and the minimizing mode, the board is the one it was
    called on, the cutoff exit included; and for a depth [>= 0] it does
    return. *)
Theorem minimax_restores_board (HSD : StackDiscipline)
    (fuel : nat) (depth : Z) (alpha beta : Score) (bot_turn : bool)
    (b : Board) :
  (forall r b',
      minimax color fuel depth alpha beta bot_turn b = Some (r, b') -> b' = b) /\
  (0 <= depth -> (Z.to_nat depth < fuel)%nat ->
   exists r, minimax color fuel depth alpha beta bot_turn b = Some (r, b)).
Proof.
  split.
  - intros r b' Hrun.
    exact (minimax_keeps_board color HSD fuel depth bot_turn alpha beta b r b' Hrun).
  - intros Hd Hf.
    destruct (minimax color fuel depth alpha beta bot_turn b) as [[r b']|] eqn:Hrun.
    + apply (minimax_keeps_board color HSD fuel depth bot_turn) in Hrun as Hb.
      subst b'. now exists r.
    + exfalso. exact (minimax_returns color fuel depth bot_turn Hd Hf alpha beta b Hrun).
Qed.

(** C5.  In the maximizing and in the minimizing branch alike the best
    move is replaced only on a strictly better score.  At a node that is
    not a leaf every returning call returns a move, and that move is the
    first of the examined moves, taken in the enumeration order of
    [legal_moves], whose score is the returned one: every move examined
    before it scored strictly worse for the side to move, and no move
    examined after it scored better, so among moves with the same extremal
    score the first is returned, never a later one.  For a depth [>= 0] the
    call does return. *)
Theorem best_move_first_among_ties (fuel : nat) (depth : Z)
    (alpha beta : Score) (bot_turn : bool) (b : Board) :
  depth <> 0 -> legal_moves b <> [] ->
  (forall v bm b',
      minimax color (S fuel) depth alpha beta bot_turn b = Some (v, bm, b') ->
      exists pre m post rest,
        bm = Some m /\
        examined color fuel depth alpha beta bot_turn b =
          pre ++ (m, v) :: post /\
        legal_moves b = map fst (pre ++ (m, v) :: post) ++ rest /\
        Forall (fun ms => worse bot_turn (snd ms) v) pre /\
        Forall (fun ms => no_better bot_turn (snd ms) v) post) /\
  (0 <= depth -> (Z.to_nat depth < S fuel)%nat ->
   exists v m b',
     minimax color (S fuel) depth alpha beta bot_turn b = Some (v, Some m, b')).
Proof.
  intros Hd Hmoves.
  assert (Hleaf : (depth =? 0) || (legal_moves_count b =? 0) = false).
  { apply orb_false_iff. split.
    - now apply Z.eqb_neq.
    - destruct (legal_moves_count b =? 0) eqn:Hc; [|reflexivity].
      apply count_zero_iff in Hc. contradiction. }
  assert (Hfirst : forall v bm b',
             minimax color (S fuel) depth alpha beta bot_turn b =
               Some (v, bm, b') ->
             exists pre m post rest,
               bm = Some m /\
               examined color fuel depth alpha beta bot_turn b =
                 pre ++ (m, v) :: post /\
               legal_moves b = map fst (pre ++ (m, v) :: post) ++ rest /\
               Forall (fun ms => worse bot_turn (snd ms) v) pre /\
               Forall (fun ms => no_better bot_turn (snd ms) v) post).
  { intros v bm b' Hrun.
    destruct (minimax_node color _ _ _ _ _ _ _ _ _ Hrun Hleaf)
      as (pre & m & post & Htr & Hbm & Hpre & Hpost).
    destruct (examined_prefix color fuel depth alpha beta bot_turn b)
      as [rest Hrest].
    exists pre, m, post, rest. rewrite <- Htr. auto. }
  split; [exact Hfirst|].
  intros Hd0 Hf.
  destruct (minimax color (S fuel) depth alpha beta bot_turn b)
    as [[[v bm] b']|] eqn:Hrun.
  - destruct (Hfirst v bm b' eq_refl) as (pre & m & post & rest & -> & _).
    now exists v, m, b'.
  - exfalso.
    exact (minimax_returns color (S fuel) depth bot_turn Hd0 Hf alpha beta b Hrun).
Qed.



(** C8.  For every position and colour, [evaluate_board] for the colour is
    the negation of [evaluate_board] for the opposite colour: the material
    term flips sign, and so does the mate bonus, on terminal and
    non-terminal positions alike. *)
Theorem evaluate_board_antisymmetric (b : Board) :
  evaluate_board color b = - evaluate_board (negb color) b /\
  material color b = - material (negb color) b /\
  mate color b = - mate (negb color) b.
Proof.
  repeat split.
  - rewrite !evaluate_board_split, material_flip, mate_flip. lia.
  - apply material_flip.
  - apply mate_flip.
Qed.

(** C9.  On a board of at most 64 occupied squares the material component
    of [evaluate_board] (everything but the mate bonus) is at most
    64 * 20 = 1280 in absolute value, hence strictly below 9999; so a
    position where the opponent has no legal move evaluates above, and one
    where the engine has no legal move below, every position that still
    has a legal move. *)
Theorem material_below_mate_sentinel (b : Board) :
  BoardSize b ->
  Z.abs (fold_left (fun rv square => rv + square_score color b square)
                   (map fst (piece_map b)) 0) <= 5120 /\
  (pawns 5120 == 1280)%Q /\
  evaluate_board color b - mate color b = material color b /\
  Z.abs (material color b) < 39996 /\
  (forall b2, BoardSize b2 -> legal_moves b2 <> [] -> legal_moves b = [] ->
     (turn b <> color -> evaluate_board color b2 < evaluate_board color b) /\
     (turn b = color -> evaluate_board color b < evaluate_board color b2)).
Proof.
  intros Hsize. unfold BoardSize in Hsize.
  pose proof (material_bound color b) as Hb.
  assert (Hm : Z.abs (material color b) <= 5120) by lia.
  split; [rewrite material_fold; exact Hm|].
  split; [reflexivity|].
  split; [rewrite evaluate_board_split; lia|].
  split; [lia|].
  intros b2 Hsize2 Hmoves2 Hmoves. unfold BoardSize in Hsize2.
  pose proof (material_bound color b2) as Hb2.
  rewrite !evaluate_board_split, !mate_terminal_bonus.
  unfold terminal_bonus. rewrite Hmoves.
  destruct (legal_moves b2); [congruence|].
  split; intros Hturn.
  - destruct (Bool.eqb (turn b) color) eqn:He.
    + apply eqb_prop in He. contradiction.
    + lia.
  - rewrite Hturn, eqb_reflx. lia.
Qed.

(** C10.  Called with the full window at any depth [>= 0], [minimax]
    returns, and the score it returns is a finite number: neither the
    initial [-inf] of the maximizing branch nor the initial [+inf] of the
    minimizing branch comes back. *)
Theorem minimax_score_finite (fuel : nat) (depth : Z) (bot_turn : bool)
    (b : Board) :
  0 <= depth -> (Z.to_nat depth < fuel)%nat ->
  exists q bm b',
    minimax color fuel depth NegInf PosInf bot_turn b = Some (Fin q, bm, b').
Proof.
  intros Hd Hf.
  destruct (minimax color fuel depth NegInf PosInf bot_turn b)
    as [[[v bm] b']|] eqn:Hrun.
  - destruct (minimax_fin color _ _ _ _ _ _ _ _ _ Hrun) as [q ->].
    now exists q, bm, b'.
  - exfalso.
    exact (minimax_returns color fuel depth bot_turn Hd Hf NegInf PosInf b Hrun).
Qed.

End Specification.

(** * The engine on the scripted game *)

(** On [demo_board] the engine prunes: after white's second move the first
    reply already scores below the 1 pawn that white's first move secures,
    and the second reply is never examined. *)
Example demo_second_move_is_cut :
  examined WHITE 3 2 NegInf PosInf true demo_board =
    [(0%nat, Fin 4); (1%nat, Fin 0); (2%nat, Fin 4)] /\
  examined WHITE 2 1 (Fin 4) PosInf false (push demo_board 1%nat) =
    [(0%nat, Fin 0)] /\
  legal_moves (push demo_board 1%nat) = [0%nat; 1%nat].
Proof. repeat split; vm_compute; reflexivity. Qed.

Lemma alpha_beta_equals_exhaustive_witness :
  @StackDiscipline _ _ script_position /\
  0 <= 2 /\ (Z.to_nat 2 < 3)%nat /\
  exists best_move,
    minimax WHITE 3 2 NegInf PosInf true demo_board =
    Some (exhaustive WHITE 2 true demo_board, best_move, demo_board).
Proof.
  split; [exact script_stack_discipline|].
  split; [lia|]. split; [vm_compute; lia|].
  apply (alpha_beta_equals_exhaustive WHITE script_stack_discipline);
    [lia | vm_compute; lia].
Defined.

Lemma evaluate_board_material_and_bonus_witness :
  evaluate_board WHITE finished_board = 4 + 39996 /\
  material WHITE finished_board = 4 /\
  terminal_bonus WHITE finished_board = 39996 /\
  evaluate_board WHITE finished_board =
    material WHITE finished_board + terminal_bonus WHITE finished_board.
Proof.
  split; [vm_compute; reflexivity|].
  split; [vm_compute; reflexivity|].
  split; [vm_compute; reflexivity|].
  exact (proj1 (evaluate_board_material_and_bonus WHITE finished_board)).
Defined.

Lemma minimax_leaf_result_witness :
  (0 = 0 \/ legal_moves demo_board = []) /\
  minimax WHITE 1 0 NegInf PosInf true demo_board =
    Some (Fin (evaluate_board WHITE demo_board), None, demo_board) /\
  minimax WHITE 4 0 NegInf PosInf true demo_board =
    Some (Fin (evaluate_board WHITE demo_board), None, demo_board) /\
  examined WHITE 3 0 NegInf PosInf true demo_board = [].
Proof.
  split; [left; reflexivity|].
  apply (minimax_leaf_result WHITE 3 0 NegInf PosInf true demo_board).
  left; reflexivity.
Defined.

Lemma minimax_restores_board_witness :
  @StackDiscipline _ _ script_position /\
  (forall r b',
      minimax WHITE 3 2 NegInf PosInf true demo_board = Some (r, b') ->
      b' = demo_board) /\
  (0 <= 2 -> (Z.to_nat 2 < 3)%nat ->
   exists r, minimax WHITE 3 2 NegInf PosInf true demo_board =
             Some (r, demo_board)).
Proof.
  split; [exact script_stack_discipline|].
  exact (minimax_restores_board WHITE script_stack_discipline
                                3 2 NegInf PosInf true demo_board).
Defined.

Lemma best_move_first_among_ties_witness :
  2 <> 0 /\ legal_moves demo_board <> [] /\
  examined WHITE 2 2 NegInf PosInf true demo_board =
    [(0%nat, Fin 4); (1%nat, Fin 0); (2%nat, Fin 4)] /\
  minimax WHITE 3 2 NegInf PosInf true demo_board =
    Some (Fin 4, Some 0%nat, demo_board) /\
  examined WHITE 2 2 NegInf PosInf false demo_board =
    [(0%nat, Fin 4); (1%nat, Fin 16); (2%nat, Fin 4)] /\
  minimax WHITE 3 2 NegInf PosInf false demo_board =
    Some (Fin 4, Some 0%nat, demo_board) /\
  (exists pre m post rest,
      Some 0%nat = Some m /\
      examined WHITE 2 2 NegInf PosInf true demo_board =
        pre ++ (m, Fin 4) :: post /\
      legal_moves demo_board = map fst (pre ++ (m, Fin 4) :: post) ++ rest /\
      Forall (fun ms => worse true (snd ms) (Fin 4)) pre /\
      Forall (fun ms => no_better true (snd ms) (Fin 4)) post) /\
  (exists pre m post rest,
      Some 0%nat = Some m /\
      examined WHITE 2 2 NegInf PosInf false demo_board =
        pre ++ (m, Fin 4) :: post /\
      legal_moves demo_board = map fst (pre ++ (m, Fin 4) :: post) ++ rest /\
      Forall (fun ms => worse false (snd ms) (Fin 4)) pre /\
      Forall (fun ms => no_better false (snd ms) (Fin 4)) post) /\
  (exists v m b',
      minimax WHITE 3 2 NegInf PosInf false demo_board = Some (v, Some m, b')).
Proof.
  assert (Hd : 2 <> 0) by lia.
  assert (Hmoves : legal_moves demo_board <> []) by discriminate.
  split; [exact Hd|]. split; [exact Hmoves|].
  split; [vm_compute; reflexivity|]. split; [vm_compute; reflexivity|].
  split; [vm_compute; reflexivity|]. split; [vm_compute; reflexivity|].
  split; [|split].
  - apply (proj1 (best_move_first_among_ties WHITE 2 2 NegInf PosInf true
                    demo_board Hd Hmoves) (Fin 4) (Some 0%nat) demo_board).
    vm_compute; reflexivity.
  - apply (proj1 (best_move_first_among_ties WHITE 2 2 NegInf PosInf false
                    demo_board Hd Hmoves) (Fin 4) (Some 0%nat) demo_board).
    vm_compute; reflexivity.
  - apply (proj2 (best_move_first_among_ties WHITE 2 2 NegInf PosInf false
                    demo_board Hd Hmoves)); [lia | vm_compute; lia].
Defined.




Lemma material_below_mate_sentinel_witness :
  BoardSize demo_board /\
  Z.abs (fold_left (fun rv square => rv + square_score WHITE demo_board square)
                   (map fst (piece_map demo_board)) 0) <= 5120 /\
  (pawns 5120 == 1280)%Q /\
  evaluate_board WHITE demo_board - mate WHITE demo_board =
    material WHITE demo_board /\
  Z.abs (material WHITE demo_board) < 39996 /\
  (forall b2 : ScriptBoard,
     BoardSize b2 -> legal_moves b2 <> [] -> legal_moves demo_board = [] ->
     (turn demo_board <> WHITE ->
      evaluate_board WHITE b2 < evaluate_board WHITE demo_board) /\
     (turn demo_board = WHITE ->
      evaluate_board WHITE demo_board < evaluate_board WHITE b2)).
Proof.
  assert (Hsize : BoardSize demo_board) by (vm_compute; lia).
  split; [exact Hsize|].
  exact (material_below_mate_sentinel WHITE demo_board Hsize).
Defined.

Lemma minimax_score_finite_witness :
  0 <= 2 /\ (Z.to_nat 2 < 3)%nat /\
  exists q bm b',
    minimax WHITE 3 2 NegInf PosInf true demo_board = Some (Fin q, bm, b').
Proof.
  split; [lia|]. split; [vm_compute; lia|].
  apply (minimax_score_finite WHITE 3 2 true demo_board);
    [lia | vm_compute; lia].
Defined.

(** * Further properties of the engine *)

Lemma fold_left_smax_in (l : list Score) :
  forall acc x, In x l -> slt (fold_left smax l acc) x = false.
Proof.
  induction l as [|y l IH]; intros acc x Hin; simpl.
  - contradiction.
  - destruct Hin as [-> | Hin].
    + pose proof (fold_left_smax_ge l (smax acc x)) as HF. revert HF.
      generalize (fold_left smax l (smax acc x)). intros F HF. score_cases.
    + now apply IH.
Qed.

Lemma fold_left_smin_in (l : list Score) :
  forall acc x, In x l -> slt x (fold_left smin l acc) = false.
Proof.
  induction l as [|y l IH]; intros acc x Hin; simpl.
  - contradiction.
  - destruct Hin as [-> | Hin].
    + pose proof (fold_left_smin_le l (smin acc x)) as HF. revert HF.
      generalize (fold_left smin l (smin acc x)). intros F HF. score_cases.
    + now apply IH.
Qed.

(** One iteration at the root, where [beta] is [+inf] (maximizing) or
    [alpha] is [-inf] (minimizing): [s] is the returned score, [x] the true
    value of the child. *)

Lemma root_max_no_cut mv q : slt mv PosInf = true ->
  sge (smax mv (Fin q)) PosInf = false /\
  slt (smax mv (Fin q)) PosInf = true.
Proof. intros; split; score_cases. Qed.

Lemma root_max_better mv s x :
  clamp mv PosInf s = clamp mv PosInf x -> slt mv s = true ->
  x = s /\ slt mv x = true.
Proof. intros; split; score_cases. Qed.

Lemma root_max_not_better mv s x :
  clamp mv PosInf s = clamp mv PosInf x -> slt mv s = false ->
  slt mv x = false.
Proof. intros; score_cases. Qed.

Lemma root_min_no_cut mv q : slt NegInf mv = true ->
  sge NegInf (smin mv (Fin q)) = false /\
  slt NegInf (smin mv (Fin q)) = true.
Proof. intros; split; score_cases. Qed.

Lemma root_min_better mv s x :
  clamp NegInf mv s = clamp NegInf mv x -> slt s mv = true ->
  x = s /\ slt x mv = true.
Proof. intros; split; score_cases. Qed.

Lemma root_min_not_better mv s x :
  clamp NegInf mv s = clamp NegInf mv x -> slt s mv = false ->
  slt x mv = false.
Proof. intros; score_cases. Qed.

Lemma slt_le_lt a b c : slt b a = false -> slt b c = true -> slt a c = true.
Proof. intros; score_cases. Qed.

Lemma slt_lt_le a b c : slt a b = true -> slt c b = false -> slt a c = true.
Proof. intros; score_cases. Qed.

Section RootFacts.

Context {Board Move : Type} `{P : Position Board Move}.
Variable color : Color.

Variable search : @Search Board Move.
Variable value : Board -> Score.
Variable b : Board.
Hypothesis Hagrees : agrees search value.
Hypothesis Hfin :
  forall a be b0 s bm b2, search a be b0 = Some (s, bm, b2) -> exists q, s = Fin q.

(** With [beta = +inf] the maximizing loop never cuts, and it ends on the
    first move whose true value is the greatest. *)
Lemma max_loop_full :
  forall moves, (forall m, In m moves -> pop (push b m) = b) ->
  forall mv bm, slt mv PosInf = true ->
  exists v bm',
    max_loop search moves mv bm mv PosInf b = Some (v, bm', b) /\
    ((bm' = bm /\ v = mv /\
      Forall (fun m => slt mv (value (push b m)) = false) moves)
     \/
     (exists pre m post,
         moves = pre ++ m :: post /\ bm' = Some m /\
         value (push b m) = v /\ slt mv v = true /\
         Forall (fun m' => slt (value (push b m')) v = true) pre /\
         Forall (fun m' => slt v (value (push b m')) = false) post)).
Proof.
  induction moves as [|m rest IH]; intros Hpop mv bm Hmv.
  - exists mv, bm. split; [reflexivity|]. left. auto.
  - rewrite max_loop_cons.
    destruct (Hagrees mv PosInf (push b m) Hmv) as (s & bm0 & Hcall & Hclamp).
    rewrite Hcall, (Hpop m (or_introl eq_refl)). cbv zeta.
    destruct (Hfin _ _ _ _ _ _ Hcall) as [q Hq].
    destruct (root_max_no_cut mv q Hmv) as [Hcut Hnext].
    rewrite <- Hq in Hcut, Hnext. rewrite Hcut.
    assert (Hpop' : forall m', In m' rest -> pop (push b m') = b)
      by (intros m' Hm'; apply Hpop; now right).
    destruct (slt mv s) eqn:Hlt.
    + destruct (root_max_better _ _ _ Hclamp Hlt) as [Hx Hltx].
      assert (Hs : smax mv s = s) by (unfold smax; now rewrite Hlt).
      rewrite Hs in *.
      destruct (IH Hpop' s (Some m) Hnext) as (v & bm' & Hrun & Hcases).
      exists v, bm'. split; [exact Hrun|]. right.
      destruct Hcases as [(-> & -> & Hall)
                         | (pre & m' & post & -> & -> & Hv & Hlt' & Hpre & Hpost)].
      * exists [], m, rest. simpl. repeat split; auto.
      * exists (m :: pre), m', post. simpl. repeat split; auto.
        -- exact (slt_trans mv s v Hlt Hlt').
        -- constructor; [|exact Hpre]. now rewrite Hx.
    + pose proof (root_max_not_better _ _ _ Hclamp Hlt) as Hx.
      assert (Hs : smax mv s = mv) by (unfold smax; now rewrite Hlt).
      rewrite Hs in *.
      destruct (IH Hpop' mv bm Hmv) as (v & bm' & Hrun & Hcases).
      exists v, bm'. split; [exact Hrun|].
      destruct Hcases as [(-> & -> & Hall)
                         | (pre & m' & post & -> & -> & Hv & Hlt' & Hpre & Hpost)].
      * left. auto.
      * right. exists (m :: pre), m', post. simpl. repeat split; auto.
        constructor; [|exact Hpre]. eapply slt_le_lt; eauto.
Qed.

(** With [alpha = -inf] the minimizing loop never cuts, and it ends on the
    first move whose true value is the least. *)
Lemma min_loop_full :
  forall moves, (forall m, In m moves -> pop (push b m) = b) ->
  forall mv bm, slt NegInf mv = true ->
  exists v bm',
    min_loop search moves mv bm NegInf mv b = Some (v, bm', b) /\
    ((bm' = bm /\ v = mv /\
      Forall (fun m => slt (value (push b m)) mv = false) moves)
     \/
     (exists pre m post,
         moves = pre ++ m :: post /\ bm' = Some m /\
         value (push b m) = v /\ slt v mv = true /\
         Forall (fun m' => slt v (value (push b m')) = true) pre /\
         Forall (fun m' => slt (value (push b m')) v = false) post)).
Proof.
  induction moves as [|m rest IH]; intros Hpop mv bm Hmv.
  - exists mv, bm. split; [reflexivity|]. left. auto.
  - rewrite min_loop_cons.
    destruct (Hagrees NegInf mv (push b m) Hmv) as (s & bm0 & Hcall & Hclamp).
    rewrite Hcall, (Hpop m (or_introl eq_refl)). cbv zeta.
    destruct (Hfin _ _ _ _ _ _ Hcall) as [q Hq].
    destruct (root_min_no_cut mv q Hmv) as [Hcut Hnext].
    rewrite <- Hq in Hcut, Hnext. rewrite Hcut.
    assert (Hpop' : forall m', In m' rest -> pop (push b m') = b)
      by (intros m' Hm'; apply Hpop; now right).
    destruct (slt s mv) eqn:Hlt.
    + destruct (root_min_better _ _ _ Hclamp Hlt) as [Hx Hltx].
      assert (Hs : smin mv s = s) by (unfold smin; now rewrite Hlt).
      rewrite Hs in *.
      destruct (IH Hpop' s (Some m) Hnext) as (v & bm' & Hrun & Hcases).
      exists v, bm'. split; [exact Hrun|]. right.
      destruct Hcases as [(-> & -> & Hall)
                         | (pre & m' & post & -> & -> & Hv & Hlt' & Hpre & Hpost)].
      * exists [], m, rest. simpl. repeat split; auto.
      * exists (m :: pre), m', post. simpl. repeat split; auto.
        -- exact (slt_trans v s mv Hlt' Hlt).
        -- constructor; [|exact Hpre]. now rewrite Hx.
    + pose proof (root_min_not_better _ _ _ Hclamp Hlt) as Hx.
      assert (Hs : smin mv s = mv) by (unfold smin; now rewrite Hlt).
      rewrite Hs in *.
      destruct (IH Hpop' mv bm Hmv) as (v & bm' & Hrun & Hcases).
      exists v, bm'. split; [exact Hrun|].
      destruct Hcases as [(-> & -> & Hall)
                         | (pre & m' & post & -> & -> & Hv & Hlt' & Hpre & Hpost)].
      * left. auto.
      * right. exists (m :: pre), m', post. simpl. repeat split; auto.
        constructor; [|exact Hpre]. eapply slt_lt_le; eauto.
Qed.

End RootFacts.

Section MoreSearchFacts.

Context {Board Move : Type} `{P : Position Board Move}.
Variable color : Color.

(** At a node that is not a leaf, searched with the full window, the move
    returned is the first legal move whose position has the value of the
    node. *)
Lemma minimax_root_optimal (HSD : StackDiscipline) fuel depth bot_turn
    (b : Board) :
  0 <= depth -> (Z.to_nat depth < fuel)%nat ->
  (depth =? 0) || (legal_moves_count b =? 0) = false ->
  exists pre m post,
    legal_moves b = pre ++ m :: post /\
    minimax color fuel depth NegInf PosInf bot_turn b =
      Some (exhaustive color (Z.to_nat depth) bot_turn b, Some m, b) /\
    exhaustive color (Z.to_nat (depth - 1)) (negb bot_turn) (push b m) =
      exhaustive color (Z.to_nat depth) bot_turn b /\
    Forall (fun m' =>
              worse bot_turn
                    (exhaustive color (Z.to_nat (depth - 1)) (negb bot_turn)
                                (push b m'))
                    (exhaustive color (Z.to_nat depth) bot_turn b)) pre /\
    Forall (fun m' =>
              no_better bot_turn
                    (exhaustive color (Z.to_nat (depth - 1)) (negb bot_turn)
                                (push b m'))
                    (exhaustive color (Z.to_nat depth) bot_turn b)) post.
Proof.
  intros Hd Hf Hleaf.
  destruct (minimax_agrees color HSD fuel depth bot_turn Hd Hf
                           NegInf PosInf b eq_refl) as (s & bm & Hrun & Hs).
  rewrite !clamp_full_window in Hs. subst s.
  destruct (minimax_fin color _ _ _ _ _ _ _ _ _ Hrun) as [q Hq].
  destruct fuel as [|fuel]; [lia|].
  pose proof Hrun as Hrun'. rewrite minimax_S, Hleaf in Hrun'.
  pose proof (leaf_test_false _ _ Hleaf) as [Hd0 Hmoves].
  assert (Hpop : forall m, In m (legal_moves b) -> pop (push b m) = b)
    by (intros m Hm; now apply HSD).
  assert (Hd1 : 0 <= depth - 1) by lia.
  assert (Hf1 : (Z.to_nat (depth - 1) < fuel)%nat) by lia.
  destruct bot_turn.
  - destruct (max_loop_full
                (fun a be b' => minimax color fuel (depth - 1) a be false b')
                (exhaustive color (Z.to_nat (depth - 1)) false) b
                (minimax_agrees color HSD fuel (depth - 1) false Hd1 Hf1)
                (fun a be b0 s bm0 b2 H =>
                   minimax_fin color fuel (depth - 1) a be false b0 s bm0 b2 H)
                (legal_moves b) Hpop NegInf None eq_refl)
      as (v & bm' & Hloop & Hcases).
    rewrite Hloop in Hrun'. injection Hrun' as Hv Hbm. subst v bm'.
    destruct Hcases as [(_ & Hneg & _)
                       | (pre & m & post & Hsplit & -> & Hval & _ & Hpre & Hpost)].
    + rewrite Hq in Hneg. discriminate.
    + exists pre, m, post. simpl. auto.
  - destruct (min_loop_full
                (fun a be b' => minimax color fuel (depth - 1) a be true b')
                (exhaustive color (Z.to_nat (depth - 1)) true) b
                (minimax_agrees color HSD fuel (depth - 1) true Hd1 Hf1)
                (fun a be b0 s bm0 b2 H =>
                   minimax_fin color fuel (depth - 1) a be true b0 s bm0 b2 H)
                (legal_moves b) Hpop PosInf None eq_refl)
      as (v & bm' & Hloop & Hcases).
    rewrite Hloop in Hrun'. injection Hrun' as Hv Hbm. subst v bm'.
    destruct Hcases as [(_ & Hneg & _)
                       | (pre & m & post & Hsplit & -> & Hval & _ & Hpre & Hpost)].
    + rewrite Hq in Hneg. discriminate.
    + exists pre, m, post. simpl. auto.
Qed.

(** An examined move was searched on the board after its push. *)
Lemma max_examined_on_push (search : Search) (b : Board) :
  keeps_board search ->
  forall moves, (forall m, In m moves -> pop (push b m) = b) ->
  forall alpha beta m s,
    In (m, s) (max_examined search moves alpha beta b) ->
    In m moves /\
    exists a be bm, search a be (push b m) = Some (s, bm, push b m).
Proof.
  intros Hkeep moves.
  induction moves as [|m0 moves IH]; intros Hpop alpha beta m s Hin;
    simpl in Hin.
  - contradiction.
  - destruct (search alpha beta (push b m0)) as [[[score bm] b2]|] eqn:Hcall;
      [|contradiction].
    pose proof (Hkeep _ _ _ _ _ Hcall) as ->.
    destruct Hin as [Heq | Hin].
    + injection Heq as <- <-. split; [now left|]. eauto.
    + destruct (sge (smax alpha score) beta); [contradiction|].
      rewrite (Hpop m0 (or_introl eq_refl)) in Hin.
      destruct (IH (fun m' Hm' => Hpop m' (or_intror Hm')) _ _ _ _ Hin)
        as [Hm Hs].
      split; [now right|exact Hs].
Qed.

Lemma min_examined_on_push (search : Search) (b : Board) :
  keeps_board search ->
  forall moves, (forall m, In m moves -> pop (push b m) = b) ->
  forall alpha beta m s,
    In (m, s) (min_examined search moves alpha beta b) ->
    In m moves /\
    exists a be bm, search a be (push b m) = Some (s, bm, push b m).
Proof.
  intros Hkeep moves.
  induction moves as [|m0 moves IH]; intros Hpop alpha beta m s Hin;
    simpl in Hin.
  - contradiction.
  - destruct (search alpha beta (push b m0)) as [[[score bm] b2]|] eqn:Hcall;
      [|contradiction].
    pose proof (Hkeep _ _ _ _ _ Hcall) as ->.
    destruct Hin as [Heq | Hin].
    + injection Heq as <- <-. split; [now left|]. eauto.
    + destruct (sge alpha (smin beta score)); [contradiction|].
      rewrite (Hpop m0 (or_introl eq_refl)) in Hin.
      destruct (IH (fun m' Hm' => Hpop m' (or_intror Hm')) _ _ _ _ Hin)
        as [Hm Hs].
      split; [now right|exact Hs].
Qed.

(** The returned score is the evaluation at the end of a line of legal
    moves that starts with the returned move. *)
Lemma minimax_line (HSD : StackDiscipline) fuel :
  forall depth alpha beta bot_turn (b : Board) v bm b',
    minimax color fuel depth alpha beta bot_turn b = Some (v, bm, b') ->
    exists line,
      legal_line b line /\ hd_error line = bm /\
      v = Fin (evaluate_board color (play_line b line)) /\
      (0 <= depth -> (length line <= Z.to_nat depth)%nat).
Proof.
  induction fuel as [|fuel IH];
    intros depth alpha beta bot_turn b v bm b' Hrun.
  - discriminate.
  - destruct ((depth =? 0) || (legal_moves_count b =? 0)) eqn:Hleaf.
    + rewrite minimax_S, Hleaf in Hrun. injection Hrun as <- <- <-.
      exists []. simpl. repeat split; auto. intros _. lia.
    + destruct (minimax_node color _ _ _ _ _ _ _ _ _ Hrun Hleaf)
        as (pre & m & post & Htr & -> & _).
      pose proof (leaf_test_false _ _ Hleaf) as [Hd0 _].
      assert (Hin : In (m, v) (examined color fuel depth alpha beta bot_turn b))
        by (rewrite Htr; apply in_elt).
      unfold examined in Hin. rewrite Hleaf in Hin.
      assert (Hpop : forall m, In m (legal_moves b) -> pop (push b m) = b)
        by (intros m0 Hm0; now apply HSD).
      assert (Hcall : In m (legal_moves b) /\
                      exists a be bm0,
                        minimax color fuel (depth - 1) a be (negb bot_turn)
                                (push b m) = Some (v, bm0, push b m)).
      { destruct bot_turn.
        - apply (max_examined_on_push _ b
                   (minimax_keeps_board color HSD fuel (depth - 1) false)
                   _ Hpop _ _ _ _ Hin).
        - apply (min_examined_on_push _ b
                   (minimax_keeps_board color HSD fuel (depth - 1) true)
                   _ Hpop _ _ _ _ Hin). }
      destruct Hcall as (Hm & a & be & bm0 & Hcall).
      destruct (IH _ _ _ _ _ _ _ _ Hcall) as (line & Hlegal & _ & Hv & Hlen).
      exists (m :: line). simpl. repeat split; auto.
      intros Hd. specialize (Hlen ltac:(lia)). lia.
Qed.

(** ** A move that ends the game *)

Lemma exhaustive_ge_child d (b : Board) m :
  In m (legal_moves b) ->
  slt (exhaustive color (S d) true b)
      (exhaustive color d false (push b m)) = false.
Proof.
  intros Hm. rewrite exhaustive_node.
  - apply fold_left_smax_in.
    apply in_map with (f := fun m => exhaustive color d false (push b m)).
    exact Hm.
  - intros Hnil. rewrite Hnil in Hm. contradiction.
Qed.

Lemma evaluate_opponent_stuck (b : Board) :
  BoardSize b -> legal_moves b = [] -> turn b <> color ->
  34876 <= evaluate_board color b.
Proof.
  intros Hsize Hnil Hturn. unfold BoardSize in Hsize.
  pose proof (material_bound color b) as Hb.
  destruct (mate_cases color b) as (_ & Hopp & _).
  rewrite evaluate_board_split, Hopp; auto. lia.
Qed.

Lemma evaluate_high_stuck (b : Board) :
  BoardSize b -> 34876 <= evaluate_board color b ->
  legal_moves b = [] /\ turn b <> color.
Proof.
  intros Hsize Hhigh. unfold BoardSize in Hsize.
  pose proof (material_bound color b) as Hb.
  destruct (mate_cases color b) as (Hown & _ & Hnone).
  rewrite evaluate_board_split in Hhigh.
  destruct (legal_moves b) as [|m rest] eqn:Hmoves.
  - split; [reflexivity|]. intros Hturn.
    rewrite Hown in Hhigh; auto. lia.
  - rewrite Hnone in Hhigh by discriminate. lia.
Qed.

End MoreSearchFacts.

(** * [maximize] and [minimize] *)

Section HelperFacts.

Context {Board Move : Type} `{P : Position Board Move}.
Variable color : Color.

Lemma maximize_S fuel depth (b : Board) :
  maximize color (S fuel) depth b =
  if depth =? 0 then Some (Fin (evaluate_board color b), b)
  else maximize_loop (fun b' => minimize color fuel (depth - 1) b')
                     (legal_moves b) NegInf b.
Proof. reflexivity. Qed.

Lemma minimize_S fuel depth (b : Board) :
  minimize color (S fuel) depth b =
  if depth =? 0 then Some (Fin (evaluate_board color b), b)
  else minimize_loop (fun b' => maximize color fuel (depth - 1) b')
                     (legal_moves b) PosInf b.
Proof. reflexivity. Qed.

Lemma maximize_loop_keeps (child : Board -> option (Score * Board)) (b : Board) :
  (forall b0 r b2, child b0 = Some (r, b2) -> b2 = b0) ->
  forall moves, (forall m, In m moves -> pop (push b m) = b) ->
  forall mx r b', maximize_loop child moves mx b = Some (r, b') -> b' = b.
Proof.
  intros Hkeep moves. induction moves as [|m rest IH]; intros Hpop mx r b' Hrun;
    simpl in Hrun.
  - congruence.
  - destruct (child (push b m)) as [[score b2]|] eqn:Hcall; [|discriminate].
    apply Hkeep in Hcall. subst b2.
    rewrite (Hpop m (or_introl eq_refl)) in Hrun.
    eapply IH; [|exact Hrun]. intros m' Hm'. apply Hpop. now right.
Qed.

Lemma minimize_loop_keeps (child : Board -> option (Score * Board)) (b : Board) :
  (forall b0 r b2, child b0 = Some (r, b2) -> b2 = b0) ->
  forall moves, (forall m, In m moves -> pop (push b m) = b) ->
  forall mn r b', minimize_loop child moves mn b = Some (r, b') -> b' = b.
Proof.
  intros Hkeep moves. induction moves as [|m rest IH]; intros Hpop mn r b' Hrun;
    simpl in Hrun.
  - congruence.
  - destruct (child (push b m)) as [[score b2]|] eqn:Hcall; [|discriminate].
    apply Hkeep in Hcall. subst b2.
    rewrite (Hpop m (or_introl eq_refl)) in Hrun.
    eapply IH; [|exact Hrun]. intros m' Hm'. apply Hpop. now right.
Qed.

Lemma maximize_minimize_keep (HSD : StackDiscipline) fuel :
  forall depth (b : Board) r b',
    (maximize color fuel depth b = Some (r, b') -> b' = b) /\
    (minimize color fuel depth b = Some (r, b') -> b' = b).
Proof.
  induction fuel as [|fuel IH]; intros depth b r b'.
  - split; discriminate.
  - rewrite maximize_S, minimize_S.
    destruct (depth =? 0).
    + split; congruence.
    + split; intros Hrun.
      * eapply maximize_loop_keeps; [| |exact Hrun].
        -- intros b0 r0 b2 H0. exact (proj2 (IH (depth - 1) b0 r0 b2) H0).
        -- intros m Hm. now apply HSD.
      * eapply minimize_loop_keeps; [| |exact Hrun].
        -- intros b0 r0 b2 H0. exact (proj1 (IH (depth - 1) b0 r0 b2) H0).
        -- intros m Hm. now apply HSD.
Qed.

Lemma maximize_loop_returns (child : Board -> option (Score * Board)) :
  (forall b0, child b0 <> None) ->
  forall moves mx b, maximize_loop child moves mx b <> None.
Proof.
  intros Hc moves. induction moves as [|m rest IH]; intros mx b; simpl.
  - discriminate.
  - destruct (child (push b m)) as [[score b2]|] eqn:Hcall.
    + apply IH.
    + now apply Hc in Hcall.
Qed.

Lemma minimize_loop_returns (child : Board -> option (Score * Board)) :
  (forall b0, child b0 <> None) ->
  forall moves mn b, minimize_loop child moves mn b <> None.
Proof.
  intros Hc moves. induction moves as [|m rest IH]; intros mn b; simpl.
  - discriminate.
  - destruct (child (push b m)) as [[score b2]|] eqn:Hcall.
    + apply IH.
    + now apply Hc in Hcall.
Qed.

Lemma maximize_minimize_return fuel :
  forall depth (b : Board),
    0 <= depth -> (Z.to_nat depth < fuel)%nat ->
    maximize color fuel depth b <> None /\ minimize color fuel depth b <> None.
Proof.
  induction fuel as [|fuel IH]; intros depth b Hd Hf.
  - lia.
  - rewrite maximize_S, minimize_S.
    destruct (depth =? 0) eqn:H0.
    + split; discriminate.
    + apply Z.eqb_neq in H0. split.
      * apply maximize_loop_returns. intros b0. apply IH; lia.
      * apply minimize_loop_returns. intros b0. apply IH; lia.
Qed.

Lemma maximize_loop_value (child : Board -> option (Score * Board))
    (value : Board -> Score) (b : Board) :
  forall moves,
    (forall m, In m moves -> pop (push b m) = b) ->
    (forall m, In m moves -> child (push b m) = Some (value (push b m), push b m)) ->
    forall mx,
      maximize_loop child moves mx b =
      Some (fold_left smax (map (fun m => value (push b m)) moves) mx, b).
Proof.
  induction moves as [|m rest IH]; intros Hpop Hchild mx; simpl.
  - reflexivity.
  - rewrite (Hchild m (or_introl eq_refl)), (Hpop m (or_introl eq_refl)).
    apply IH; intros m' Hm'; [apply Hpop|apply Hchild]; now right.
Qed.

Lemma minimize_loop_value (child : Board -> option (Score * Board))
    (value : Board -> Score) (b : Board) :
  forall moves,
    (forall m, In m moves -> pop (push b m) = b) ->
    (forall m, In m moves -> child (push b m) = Some (value (push b m), push b m)) ->
    forall mn,
      minimize_loop child moves mn b =
      Some (fold_left smin (map (fun m => value (push b m)) moves) mn, b).
Proof.
  induction moves as [|m rest IH]; intros Hpop Hchild mn; simpl.
  - reflexivity.
  - rewrite (Hchild m (or_introl eq_refl)), (Hpop m (or_introl eq_refl)).
    apply IH; intros m' Hm'; [apply Hpop|apply Hchild]; now right.
Qed.

Lemma has_moves_within_S n (b : Board) :
  has_moves_within (S n) b = true ->
  legal_moves b <> [] /\
  forall m, In m (legal_moves b) -> has_moves_within n (push b m) = true.
Proof.
  cbn [has_moves_within].
  destruct (legal_moves b) as [|m0 rest] eqn:Hmoves; [discriminate|].
  intros Hall. split; [discriminate|].
  intros m Hm. rewrite forallb_forall in Hall. now apply Hall.
Qed.

Lemma maximize_minimize_exhaustive (HSD : StackDiscipline) fuel :
  forall depth (b : Board),
    0 <= depth -> (Z.to_nat depth < fuel)%nat ->
    has_moves_within (Z.to_nat depth) b = true ->
    maximize color fuel depth b =
      Some (exhaustive color (Z.to_nat depth) true b, b) /\
    minimize color fuel depth b =
      Some (exhaustive color (Z.to_nat depth) false b, b).
Proof.
  induction fuel as [|fuel IH]; intros depth b Hd Hf Halive.
  - lia.
  - rewrite maximize_S, minimize_S.
    destruct (depth =? 0) eqn:H0.
    + apply Z.eqb_eq in H0. subst depth. split; reflexivity.
    + apply Z.eqb_neq in H0.
      assert (Hsucc : Z.to_nat depth = S (Z.to_nat (depth - 1))) by lia.
      rewrite Hsucc in *.
      apply has_moves_within_S in Halive. destruct Halive as [Hmoves Hnext].
      rewrite !(exhaustive_node _ _ _ _ Hmoves).
      assert (Hpop : forall m, In m (legal_moves b) -> pop (push b m) = b)
        by (intros m Hm; now apply HSD).
      split.
      * apply maximize_loop_value; [exact Hpop|].
        intros m Hm. apply IH; [lia|lia|now apply Hnext].
      * apply minimize_loop_value; [exact Hpop|].
        intros m Hm. apply IH; [lia|lia|now apply Hnext].
Qed.

End HelperFacts.

(** * [playHumanMove] *)

Section HumanFacts.

Context {Board Move : Type} `{C : Console Board Move}.

Lemma playHumanMove_eof fuel (b : Board) : playHumanMove fuel [] b = None.
Proof. induction fuel as [|fuel IH]; simpl; auto. Qed.

Lemma playHumanMove_skips (b b' : Board) good rest :
  String.eqb good "undo" = false -> push_san b good = Some b' ->
  forall bad fuel,
    Forall (rejected b) bad -> (length bad < fuel)%nat ->
    playHumanMove fuel (bad ++ good :: rest) b = Some (b', rest).
Proof.
  intros Hgood Hpush bad. induction bad as [|x bad IH]; intros fuel' Hbad Hf.
  - destruct fuel' as [|fuel']; [simpl in Hf; lia|].
    cbn [playHumanMove app]. now rewrite Hgood, Hpush.
  - destruct fuel' as [|fuel']; [simpl in Hf; lia|].
    inversion Hbad as [|? ? [Hx1 Hx2] Hrest]; subst.
    cbn [playHumanMove app]. rewrite Hx1, Hx2.
    apply IH; [exact Hrest|]. simpl in Hf. lia.
Qed.

Lemma playHumanMove_one_push fuel :
  forall inputs (b b' : Board) rest,
    playHumanMove fuel inputs b = Some (b', rest) ->
    exists used play n,
      inputs = used ++ play :: rest /\
      String.eqb play "undo" = false /\
      push_san (Nat.iter n pop b) play = Some b' /\
      (n <= 2 * length used)%nat.
Proof.
  induction fuel as [|fuel IH]; intros inputs b b' rest Hrun.
  - discriminate.
  - destruct inputs as [|play0 inputs].
    + rewrite playHumanMove_eof in Hrun. discriminate.
    + cbn [playHumanMove] in Hrun.
      destruct (String.eqb play0 "undo") eqn:Hundo.
      * destruct (pop_raises b).
        -- destruct (IH _ _ _ _ Hrun) as (used & play & n & -> & Hp & Hpush & Hn).
           exists (play0 :: used), play, n. simpl. repeat split; auto. lia.
        -- destruct (pop_raises (pop b)).
           ++ destruct (IH _ _ _ _ Hrun)
                as (used & play & n & -> & Hp & Hpush & Hn).
              exists (play0 :: used), play, (S n).
              rewrite Nat.iter_succ_r. simpl. repeat split; auto. lia.
           ++ destruct (IH _ _ _ _ Hrun)
                as (used & play & n & -> & Hp & Hpush & Hn).
              exists (play0 :: used), play, (S (S n)).
              rewrite !Nat.iter_succ_r. simpl. repeat split; auto. lia.
      * destruct (push_san b play0) as [b1|] eqn:Hpush0.
        -- injection Hrun as <- <-.
           exists [], play0, 0%nat. simpl. repeat split; auto.
        -- destruct (IH _ _ _ _ Hrun) as (used & play & n & -> & Hp & Hpush & Hn).
           exists (play0 :: used), play, n. simpl. repeat split; auto. lia.
Qed.

End HumanFacts.

Lemma script_pop_after_push : @PopAfterPush _ _ _ script_console.
Proof.
  intros b m Hin. destruct b as [|t st].
  - contradiction.
  - reflexivity.
Qed.

(** * Further properties, one by one *)

Lemma window_cases alpha beta s x :
  slt alpha beta = true -> clamp alpha beta s = clamp alpha beta x ->
  (slt alpha x = true -> slt x beta = true -> s = x) /\
  (slt alpha x = false -> slt alpha s = false) /\
  (slt x beta = false -> slt s beta = false).
Proof. intros; repeat split; intros; score_cases. Qed.

Section FurtherSpecification.

Context {Board Move : Type} `{P : Position Board Move}.
Variable color : Color.

Lemma node_test depth (b : Board) :
  depth <> 0 -> legal_moves b <> [] ->
  (depth =? 0) || (legal_moves_count b =? 0) = false.
Proof.
  intros Hd Hb. apply orb_false_iff. split.
  - now apply Z.eqb_neq.
  - destruct (legal_moves_count b =? 0) eqn:Hc; [|reflexivity].
    apply count_zero_iff in Hc. contradiction.
Qed.

(** X1.  With any window [alpha < beta] and a depth [>= 0], [minimax]
    returns and leaves the board; when the value of the exhaustive search
    lies strictly inside the window the returned score is that value, when
    it is [<= alpha] so is the returned score, and when it is [>= beta] so
    is the returned score. *)
Theorem minimax_window_sound (HSD : StackDiscipline)
    (fuel : nat) (depth : Z) (alpha beta : Score) (bot_turn : bool)
    (b : Board) :
  0 <= depth -> (Z.to_nat depth < fuel)%nat -> slt alpha beta = true ->
  exists s bm,
    minimax color fuel depth alpha beta bot_turn b = Some (s, bm, b) /\
    (slt alpha (exhaustive color (Z.to_nat depth) bot_turn b) = true ->
     slt (exhaustive color (Z.to_nat depth) bot_turn b) beta = true ->
     s = exhaustive color (Z.to_nat depth) bot_turn b) /\
    (slt alpha (exhaustive color (Z.to_nat depth) bot_turn b) = false ->
     slt alpha s = false) /\
    (slt (exhaustive color (Z.to_nat depth) bot_turn b) beta = false ->
     slt s beta = false).
Proof.
  intros Hd Hf Hlt.
  destruct (minimax_agrees color HSD fuel depth bot_turn Hd Hf
                           alpha beta b Hlt) as (s & bm & Hrun & Hs).
  exists s, bm. split; [exact Hrun|].
  now apply window_cases.
Qed.

(** X2.  Called with the full window at a depth [>= 1] on a position that
    has legal moves, [minimax] returns the first legal move, in the order of
    [legal_moves], whose resulting position has the exhaustive value of the
    node: the moves before it are strictly worse for the side to move, the
    moves after it no better.  Pruning below the root does not change the
    move either. *)
Theorem minimax_returns_first_best_move (HSD : StackDiscipline)
    (fuel : nat) (depth : Z) (bot_turn : bool) (b : Board) :
  0 < depth -> (Z.to_nat depth < fuel)%nat -> legal_moves b <> [] ->
  exists pre m post,
    legal_moves b = pre ++ m :: post /\
    minimax color fuel depth NegInf PosInf bot_turn b =
      Some (exhaustive color (Z.to_nat depth) bot_turn b, Some m, b) /\
    exhaustive color (Z.to_nat (depth - 1)) (negb bot_turn) (push b m) =
      exhaustive color (Z.to_nat depth) bot_turn b /\
    Forall (fun m' =>
              worse bot_turn
                    (exhaustive color (Z.to_nat (depth - 1)) (negb bot_turn)
                                (push b m'))
                    (exhaustive color (Z.to_nat depth) bot_turn b)) pre /\
    Forall (fun m' =>
              no_better bot_turn
                    (exhaustive color (Z.to_nat (depth - 1)) (negb bot_turn)
                                (push b m'))
                    (exhaustive color (Z.to_nat depth) bot_turn b)) post.
Proof.
  intros Hd Hf Hmoves.
  apply minimax_root_optimal; auto; [lia|].
  apply node_test; [lia|exact Hmoves].
Qed.

(** X3.  Whatever [minimax] returns, the score is [evaluate_board] of a
    position reached from the current one by a line of legal moves that
    begins with the returned move (the empty line when no move is
    returned), and for a depth [>= 0] the line has at most [depth] moves. *)
Theorem minimax_score_on_legal_line (HSD : StackDiscipline)
    (fuel : nat) (depth : Z) (alpha beta : Score) (bot_turn : bool)
    (b : Board) (v : Score) (bm : option Move) (b' : Board) :
  minimax color fuel depth alpha beta bot_turn b = Some (v, bm, b') ->
  exists line,
    legal_line b line /\ hd_error line = bm /\
    v = Fin (evaluate_board color (play_line b line)) /\
    (0 <= depth -> (length line <= Z.to_nat depth)%nat).
Proof. intros Hrun. eapply minimax_line; eauto. Qed.

(** X4.  When the engine is to move and one of its legal moves leaves the
    opponent to move without a legal move, [minimax] with the full window
    at any depth [>= 1] returns a score of at least 9999 - 1280 = 8719. *)
Theorem mating_move_score (HSD : StackDiscipline)
    (fuel : nat) (depth : Z) (b : Board) (m : Move) :
  0 < depth -> (Z.to_nat depth < fuel)%nat ->
  In m (legal_moves b) -> legal_moves (push b m) = [] ->
  turn (push b m) <> color -> BoardSize (push b m) ->
  exists q bm,
    minimax color fuel depth NegInf PosInf true b = Some (Fin q, bm, b) /\
    34876 <= q /\ (pawns 34876 == 8719)%Q.
Proof.
  intros Hd Hf Hm Hnil Hturn Hsize.
  destruct (minimax_agrees color HSD fuel depth true ltac:(lia) Hf
                           NegInf PosInf b eq_refl) as (s & bm & Hrun & Hs).
  rewrite !clamp_full_window in Hs.
  destruct (minimax_fin color _ _ _ _ _ _ _ _ _ Hrun) as [q Hq].
  exists q, bm. rewrite <- Hq. split; [exact Hrun|]. split; [|reflexivity].
  assert (Hsucc : Z.to_nat depth = S (Z.to_nat (depth - 1))) by lia.
  rewrite Hsucc in Hs.
  pose proof (exhaustive_ge_child color (Z.to_nat (depth - 1)) b m Hm) as Hge.
  rewrite <- Hs, Hq in Hge.
  rewrite (exhaustive_leaf color _ false (push b m) (or_intror Hnil)) in Hge.
  pose proof (evaluate_opponent_stuck color _ Hsize Hnil Hturn) as Hhigh.
  simpl in Hge. apply Z.ltb_ge in Hge. lia.
Qed.

(** X5.  At depth 1, when some legal move leaves the opponent to move
    without a legal move, the move [minimax] returns is such a move. *)
Theorem depth_one_ends_game (HSD : StackDiscipline)
    (fuel : nat) (b : Board) (m : Move) :
  (1 < fuel)%nat ->
  In m (legal_moves b) -> legal_moves (push b m) = [] ->
  turn (push b m) <> color ->
  (forall m', In m' (legal_moves b) -> BoardSize (push b m')) ->
  exists v best,
    minimax color fuel 1 NegInf PosInf true b = Some (v, Some best, b) /\
    In best (legal_moves b) /\
    legal_moves (push b best) = [] /\ turn (push b best) <> color.
Proof.
  intros Hf Hm Hnil Hturn Hsize.
  assert (Hmoves : legal_moves b <> [])
    by (intros H0; rewrite H0 in Hm; contradiction).
  destruct (minimax_root_optimal color HSD fuel 1 true b ltac:(lia)
              ltac:(simpl; lia) (node_test 1 b ltac:(lia) Hmoves))
    as (pre & best & post & Hsplit & Hrun & Hval & _).
  change (Z.to_nat (1 - 1)) with 0%nat in Hval.
  change (Z.to_nat 1) with 1%nat in Hval, Hrun.
  assert (Hbest : In best (legal_moves b))
    by (rewrite Hsplit; apply in_elt).
  exists (exhaustive color 1 true b), best.
  split; [exact Hrun|]. split; [exact Hbest|].
  apply evaluate_high_stuck with (color := color); [now apply Hsize|].
  pose proof (exhaustive_ge_child color 0 b m Hm) as Hge.
  rewrite <- Hval in Hge. simpl in Hge. apply Z.ltb_ge in Hge.
  pose proof (evaluate_opponent_stuck color _ (Hsize m Hm) Hnil Hturn).
  lia.
Qed.

(** X6.  [maximize] and [minimize] give back the board they were called
    on whenever they return, and for a depth [>= 0] they return. *)
Theorem maximize_minimize_restore_board (HSD : StackDiscipline)
    (fuel : nat) (depth : Z) (b : Board) :
  (forall r b', maximize color fuel depth b = Some (r, b') -> b' = b) /\
  (forall r b', minimize color fuel depth b = Some (r, b') -> b' = b) /\
  (0 <= depth -> (Z.to_nat depth < fuel)%nat ->
   (exists r, maximize color fuel depth b = Some (r, b)) /\
   (exists r, minimize color fuel depth b = Some (r, b))).
Proof.
  split; [|split].
  - intros r b'. apply (maximize_minimize_keep color HSD fuel depth b r b').
  - intros r b'. apply (maximize_minimize_keep color HSD fuel depth b r b').
  - intros Hd Hf.
    destruct (maximize_minimize_return color fuel depth b Hd Hf) as [Hmax Hmin].
    split.
    + destruct (maximize color fuel depth b) as [[r b']|] eqn:Hrun;
        [|contradiction].
      apply (maximize_minimize_keep color HSD fuel depth b r b') in Hrun as ->.
      now exists r.
    + destruct (minimize color fuel depth b) as [[r b']|] eqn:Hrun;
        [|contradiction].
      apply (maximize_minimize_keep color HSD fuel depth b r b') in Hrun as ->.
      now exists r.
Qed.

(** X7.  On a position without legal moves and with a depth other than 0,
    [maximize] returns [-inf] and [minimize] returns [+inf], where [minimax]
    returns the evaluation of the position: the helpers have no test for
    the end of the game. *)
Theorem helpers_infinite_without_moves (fuel : nat) (depth : Z)
    (alpha beta : Score) (bot_turn : bool) (b : Board) :
  depth <> 0 -> legal_moves b = [] ->
  maximize color (S fuel) depth b = Some (NegInf, b) /\
  minimize color (S fuel) depth b = Some (PosInf, b) /\
  minimax color (S fuel) depth alpha beta bot_turn b =
    Some (Fin (evaluate_board color b), None, b).
Proof.
  intros Hd Hnil. apply Z.eqb_neq in Hd.
  rewrite maximize_S, minimize_S, Hd, Hnil. repeat split.
  apply minimax_leaf. now right.
Qed.

(** X8.  When every position reached in fewer than [depth] plies has a
    legal move, [maximize] returns the score that [minimax] returns with
    the full window as the maximizing side, and [minimize] the score that
    [minimax] returns as the minimizing side. *)
Theorem helpers_agree_with_minimax (HSD : StackDiscipline)
    (fuel : nat) (depth : Z) (b : Board) :
  0 <= depth -> (Z.to_nat depth < fuel)%nat ->
  has_moves_within (Z.to_nat depth) b = true ->
  (exists v bm,
      maximize color fuel depth b = Some (v, b) /\
      minimax color fuel depth NegInf PosInf true b = Some (v, bm, b)) /\
  (exists v bm,
      minimize color fuel depth b = Some (v, b) /\
      minimax color fuel depth NegInf PosInf false b = Some (v, bm, b)).
Proof.
  intros Hd Hf Halive.
  destruct (maximize_minimize_exhaustive color HSD fuel depth b Hd Hf Halive)
    as [Hmax Hmin].
  split.
  - destruct (minimax_agrees color HSD fuel depth true Hd Hf
                             NegInf PosInf b eq_refl) as (s & bm & Hrun & Hs).
    rewrite !clamp_full_window in Hs. subst s. eauto.
  - destruct (minimax_agrees color HSD fuel depth false Hd Hf
                             NegInf PosInf b eq_refl) as (s & bm & Hrun & Hs).
    rewrite !clamp_full_window in Hs. subst s. eauto.
Qed.

(** X9.  With a depth [>= 1] on a position that has legal moves,
    [playEngineMove] pushes one legal move on the board it was given, and
    that move is the first legal move whose position has the exhaustive
    minimax value of the current position. *)
Theorem playEngineMove_pushes_best_move (HSD : StackDiscipline)
    (fuel : nat) (maxDepth : Z) (b : Board) :
  0 < maxDepth -> (Z.to_nat maxDepth < fuel)%nat -> legal_moves b <> [] ->
  exists pre m post,
    legal_moves b = pre ++ m :: post /\
    playEngineMove color fuel maxDepth b = Some (Pushed (push b m)) /\
    exhaustive color (Z.to_nat (maxDepth - 1)) false (push b m) =
      exhaustive color (Z.to_nat maxDepth) true b /\
    Forall (fun m' =>
              slt (exhaustive color (Z.to_nat (maxDepth - 1)) false (push b m'))
                  (exhaustive color (Z.to_nat maxDepth) true b) = true) pre.
Proof.
  intros Hd Hf Hmoves.
  destruct (minimax_root_optimal color HSD fuel maxDepth true b ltac:(lia) Hf
              (node_test maxDepth b ltac:(lia) Hmoves))
    as (pre & m & post & Hsplit & Hrun & Hval & Hpre & _).
  exists pre, m, post. unfold playEngineMove. rewrite Hrun. auto.
Qed.

(** X10.  [playEngineMove] calls [push] with [None] exactly when the depth
    is 0 or the position has no legal move. *)
Theorem playEngineMove_pushes_none_iff_leaf (maxDepth : Z) (b : Board) :
  (maxDepth = 0 \/ legal_moves b = [] ->
   forall fuel,
     playEngineMove color (S fuel) maxDepth b = Some (PushedNone b)) /\
  (forall fuel b',
     playEngineMove color fuel maxDepth b = Some (PushedNone b') ->
     maxDepth = 0 \/ legal_moves b = []).
Proof.
  split.
  - intros Hleaf fuel. unfold playEngineMove.
    now rewrite (minimax_leaf color fuel maxDepth NegInf PosInf true b Hleaf).
  - intros fuel b' Hplay. unfold playEngineMove in Hplay.
    destruct (minimax color fuel maxDepth NegInf PosInf true b)
      as [[[v [m|]] b1]|] eqn:Hrun; try discriminate.
    destruct fuel as [|fuel]; [discriminate|].
    destruct ((maxDepth =? 0) || (legal_moves_count b =? 0)) eqn:Hleaf.
    + apply orb_true_iff in Hleaf. destruct Hleaf as [H0 | Hc].
      * left. now apply Z.eqb_eq.
      * right. now apply count_zero_iff.
    + destruct (minimax_node color _ _ _ _ _ _ _ _ _ Hrun Hleaf)
        as (pre & m & post & _ & Hbm & _).
      discriminate.
Qed.

End FurtherSpecification.

Section HumanSpecification.

Context {Board Move : Type} `{C : Console Board Move}.

(** X11.  [playHumanMove] asks again after every line that [push_san]
    refuses, with the board unchanged, and returns at the first line that
    [push_san] accepts, the board being the one [push_san] gives. *)
Theorem playHumanMove_skips_rejected_lines (fuel : nat) (b b' : Board)
    (bad : list string) (good : string) (rest : list string) :
  Forall (rejected b) bad ->
  String.eqb good "undo" = false -> push_san b good = Some b' ->
  (length bad < fuel)%nat ->
  playHumanMove fuel (bad ++ good :: rest) b = Some (b', rest).
Proof.
  intros Hbad Hgood Hpush Hf. now apply playHumanMove_skips.
Qed.

(** X12.  On the line [undo], [playHumanMove] takes back the last two
    moves and asks again; with a single move on the stack it takes back
    that one only (the second [pop] raises and is caught), and with an
    empty stack it takes back nothing. *)
Theorem undo_takes_back_plies (HSD : StackDiscipline) (HPP : PopAfterPush)
    (fuel : nat) (inputs : list string) (b : Board) :
  (forall m1 m2,
      In m1 (legal_moves b) -> In m2 (legal_moves (push b m1)) ->
      playHumanMove (S fuel) ("undo"%string :: inputs) (push (push b m1) m2) =
      playHumanMove fuel inputs b) /\
  (forall m,
      pop_raises b = true -> In m (legal_moves b) ->
      playHumanMove (S fuel) ("undo"%string :: inputs) (push b m) =
      playHumanMove fuel inputs b) /\
  (pop_raises b = true ->
   playHumanMove (S fuel) ("undo"%string :: inputs) b =
   playHumanMove fuel inputs b).
Proof.
  split; [|split].
  - intros m1 m2 H1 H2. cbn [playHumanMove]. rewrite String.eqb_refl.
    rewrite (HPP _ _ H2), (HSD _ _ H2), (HPP _ _ H1), (HSD _ _ H1).
    reflexivity.
  - intros m Hempty Hm. cbn [playHumanMove]. rewrite String.eqb_refl.
    rewrite (HPP _ _ Hm), (HSD _ _ Hm), Hempty. reflexivity.
  - intros Hempty. cbn [playHumanMove]. rewrite String.eqb_refl.
    now rewrite Hempty.
Qed.

(** X13.  [playHumanMove] never returns without a move: with no input left
    it does not return, and when it returns, the board is what [push_san]
    made of one input line other than [undo], played on the given board
    after at most two [pop]s for each line read before it. *)
Theorem playHumanMove_pushes_one_move (fuel : nat) (inputs : list string)
    (b : Board) :
  playHumanMove fuel [] b = None /\
  (forall b' rest,
      playHumanMove fuel inputs b = Some (b', rest) ->
      exists used play n,
        inputs = used ++ play :: rest /\
        String.eqb play "undo" = false /\
        push_san (Nat.iter n pop b) play = Some b' /\
        (n <= 2 * length used)%nat).
Proof.
  split.
  - apply playHumanMove_eof.
  - intros b' rest Hrun. eapply playHumanMove_one_push; eauto.
Qed.

End HumanSpecification.

(** * The rest of the program on the scripted game *)

Lemma minimax_window_sound_witness :
  @StackDiscipline _ _ script_position /\
  0 <= 2 /\ (Z.to_nat 2 < 3)%nat /\ slt (Fin 0) (Fin 8) = true /\
  exists s bm,
    minimax WHITE 3 2 (Fin 0) (Fin 8) true demo_board =
      Some (s, bm, demo_board) /\
    (slt (Fin 0) (exhaustive WHITE (Z.to_nat 2) true demo_board) = true ->
     slt (exhaustive WHITE (Z.to_nat 2) true demo_board) (Fin 8) = true ->
     s = exhaustive WHITE (Z.to_nat 2) true demo_board) /\
    (slt (Fin 0) (exhaustive WHITE (Z.to_nat 2) true demo_board) = false ->
     slt (Fin 0) s = false) /\
    (slt (exhaustive WHITE (Z.to_nat 2) true demo_board) (Fin 8) = false ->
     slt s (Fin 8) = false).
Proof.
  split; [exact script_stack_discipline|].
  split; [lia|]. split; [vm_compute; lia|]. split; [reflexivity|].
  apply (minimax_window_sound WHITE script_stack_discipline 3 2 (Fin 0) (Fin 8)
                              true demo_board);
    [lia | vm_compute; lia | reflexivity].
Defined.

Lemma minimax_returns_first_best_move_witness :
  @StackDiscipline _ _ script_position /\
  0 < 2 /\ (Z.to_nat 2 < 3)%nat /\ legal_moves demo_board <> [] /\
  exists pre m post,
    legal_moves demo_board = pre ++ m :: post /\
    minimax WHITE 3 2 NegInf PosInf true demo_board =
      Some (exhaustive WHITE (Z.to_nat 2) true demo_board, Some m, demo_board) /\
    exhaustive WHITE (Z.to_nat (2 - 1)) (negb true) (push demo_board m) =
      exhaustive WHITE (Z.to_nat 2) true demo_board /\
    Forall (fun m' =>
              worse true
                    (exhaustive WHITE (Z.to_nat (2 - 1)) (negb true)
                                (push demo_board m'))
                    (exhaustive WHITE (Z.to_nat 2) true demo_board)) pre /\
    Forall (fun m' =>
              no_better true
                    (exhaustive WHITE (Z.to_nat (2 - 1)) (negb true)
                                (push demo_board m'))
                    (exhaustive WHITE (Z.to_nat 2) true demo_board)) post.
Proof.
  split; [exact script_stack_discipline|].
  split; [lia|]. split; [vm_compute; lia|]. split; [discriminate|].
  apply (minimax_returns_first_best_move WHITE script_stack_discipline 3 2 true
                                         demo_board);
    [lia | vm_compute; lia | discriminate].
Defined.

Lemma minimax_score_on_legal_line_witness :
  @StackDiscipline _ _ script_position /\
  minimax WHITE 3 2 NegInf PosInf true demo_board =
    Some (Fin 4, Some 0%nat, demo_board) /\
  exists line,
    legal_line demo_board line /\ hd_error line = Some 0%nat /\
    Fin 4 = Fin (evaluate_board WHITE (play_line demo_board line)) /\
    (0 <= 2 -> (length line <= Z.to_nat 2)%nat).
Proof.
  split; [exact script_stack_discipline|].
  split; [vm_compute; reflexivity|].
  apply (minimax_score_on_legal_line WHITE script_stack_discipline 3 2
           NegInf PosInf true demo_board (Fin 4) (Some 0%nat) demo_board).
  vm_compute; reflexivity.
Defined.

Lemma mating_move_score_witness :
  @StackDiscipline _ _ script_position /\
  0 < 2 /\ (Z.to_nat 2 < 3)%nat /\
  In 1%nat (legal_moves mate_choice_board) /\
  legal_moves (push mate_choice_board 1%nat) = [] /\
  turn (push mate_choice_board 1%nat) <> WHITE /\
  BoardSize (push mate_choice_board 1%nat) /\
  exists q bm,
    minimax WHITE 3 2 NegInf PosInf true mate_choice_board =
      Some (Fin q, bm, mate_choice_board) /\
    34876 <= q /\ (pawns 34876 == 8719)%Q.
Proof.
  assert (Hin : In 1%nat (legal_moves mate_choice_board))
    by (right; left; reflexivity).
  assert (Hnil : legal_moves (push mate_choice_board 1%nat) = [])
    by reflexivity.
  assert (Hturn : turn (push mate_choice_board 1%nat) <> WHITE)
    by discriminate.
  assert (Hsize : BoardSize (push mate_choice_board 1%nat))
    by (vm_compute; lia).
  split; [exact script_stack_discipline|].
  split; [lia|]. split; [vm_compute; lia|].
  split; [exact Hin|]. split; [exact Hnil|]. split; [exact Hturn|].
  split; [exact Hsize|].
  apply (mating_move_score WHITE script_stack_discipline 3 2 mate_choice_board
                           1%nat);
    [lia | vm_compute; lia | exact Hin | exact Hnil | exact Hturn | exact Hsize].
Defined.

Lemma depth_one_ends_game_witness :
  @StackDiscipline _ _ script_position /\
  (1 < 2)%nat /\
  In 1%nat (legal_moves mate_choice_board) /\
  legal_moves (push mate_choice_board 1%nat) = [] /\
  turn (push mate_choice_board 1%nat) <> WHITE /\
  (forall m', In m' (legal_moves mate_choice_board) ->
              BoardSize (push mate_choice_board m')) /\
  exists v best,
    minimax WHITE 2 1 NegInf PosInf true mate_choice_board =
      Some (v, Some best, mate_choice_board) /\
    In best (legal_moves mate_choice_board) /\
    legal_moves (push mate_choice_board best) = [] /\
    turn (push mate_choice_board best) <> WHITE.
Proof.
  assert (Hin : In 1%nat (legal_moves mate_choice_board))
    by (right; left; reflexivity).
  assert (Hnil : legal_moves (push mate_choice_board 1%nat) = [])
    by reflexivity.
  assert (Hturn : turn (push mate_choice_board 1%nat) <> WHITE)
    by discriminate.
  assert (Hsize : forall m', In m' (legal_moves mate_choice_board) ->
                             BoardSize (push mate_choice_board m')).
  { intros m' [<- | [<- | []]]; vm_compute; lia. }
  split; [exact script_stack_discipline|].
  split; [lia|]. split; [exact Hin|]. split; [exact Hnil|].
  split; [exact Hturn|]. split; [exact Hsize|].
  apply (depth_one_ends_game WHITE script_stack_discipline 2 mate_choice_board
                             1%nat);
    [lia | exact Hin | exact Hnil | exact Hturn | exact Hsize].
Defined.

Lemma maximize_minimize_restore_board_witness :
  @StackDiscipline _ _ script_position /\
  (forall r b', maximize WHITE 3 2 demo_board = Some (r, b') -> b' = demo_board) /\
  (forall r b', minimize WHITE 3 2 demo_board = Some (r, b') -> b' = demo_board) /\
  (0 <= 2 -> (Z.to_nat 2 < 3)%nat ->
   (exists r, maximize WHITE 3 2 demo_board = Some (r, demo_board)) /\
   (exists r, minimize WHITE 3 2 demo_board = Some (r, demo_board))).
Proof.
  split; [exact script_stack_discipline|].
  exact (maximize_minimize_restore_board WHITE script_stack_discipline 3 2
                                         demo_board).
Defined.

Lemma helpers_infinite_without_moves_witness :
  3 <> 0 /\ legal_moves finished_board = [] /\
  maximize WHITE 1 3 finished_board = Some (NegInf, finished_board) /\
  minimize WHITE 1 3 finished_board = Some (PosInf, finished_board) /\
  minimax WHITE 1 3 NegInf PosInf true finished_board =
    Some (Fin (evaluate_board WHITE finished_board), None, finished_board).
Proof.
  split; [lia|]. split; [reflexivity|].
  apply (helpers_infinite_without_moves WHITE 0 3 NegInf PosInf true
                                        finished_board);
    [lia | reflexivity].
Defined.

Lemma helpers_agree_with_minimax_witness :
  @StackDiscipline _ _ script_position /\
  0 <= 3 /\ (Z.to_nat 3 < 4)%nat /\
  has_moves_within (Z.to_nat 3) demo_board = true /\
  (exists v bm,
      maximize WHITE 4 3 demo_board = Some (v, demo_board) /\
      minimax WHITE 4 3 NegInf PosInf true demo_board =
        Some (v, bm, demo_board)) /\
  (exists v bm,
      minimize WHITE 4 3 demo_board = Some (v, demo_board) /\
      minimax WHITE 4 3 NegInf PosInf false demo_board =
        Some (v, bm, demo_board)).
Proof.
  split; [exact script_stack_discipline|].
  split; [lia|]. split; [vm_compute; lia|].
  split; [vm_compute; reflexivity|].
  apply (helpers_agree_with_minimax WHITE script_stack_discipline 4 3
                                    demo_board);
    [lia | vm_compute; lia | vm_compute; reflexivity].
Defined.

Lemma playEngineMove_pushes_best_move_witness :
  @StackDiscipline _ _ script_position /\
  0 < 2 /\ (Z.to_nat 2 < 3)%nat /\ legal_moves demo_board <> [] /\
  exists pre m post,
    legal_moves demo_board = pre ++ m :: post /\
    playEngineMove WHITE 3 2 demo_board = Some (Pushed (push demo_board m)) /\
    exhaustive WHITE (Z.to_nat (2 - 1)) false (push demo_board m) =
      exhaustive WHITE (Z.to_nat 2) true demo_board /\
    Forall (fun m' =>
              slt (exhaustive WHITE (Z.to_nat (2 - 1)) false (push demo_board m'))
                  (exhaustive WHITE (Z.to_nat 2) true demo_board) = true) pre.
Proof.
  split; [exact script_stack_discipline|].
  split; [lia|]. split; [vm_compute; lia|]. split; [discriminate|].
  apply (playEngineMove_pushes_best_move WHITE script_stack_discipline 3 2
                                         demo_board);
    [lia | vm_compute; lia | discriminate].
Defined.

Lemma playEngineMove_pushes_none_iff_leaf_witness :
  (5 = 0 \/ legal_moves finished_board = []) /\
  playEngineMove WHITE 1 5 finished_board = Some (PushedNone finished_board).
Proof.
  split; [right; reflexivity|].
  apply (proj1 (playEngineMove_pushes_none_iff_leaf WHITE 5 finished_board)).
  right; reflexivity.
Defined.

Lemma playHumanMove_skips_rejected_lines_witness :
  Forall (rejected demo_board) ["x"; "7"]%string /\
  String.eqb "1" "undo" = false /\
  push_san demo_board "1" = Some (push demo_board 1%nat) /\
  (length ["x"; "7"]%string < 3)%nat /\
  playHumanMove 3 (["x"; "7"]%string ++ "1"%string :: ["0"%string]) demo_board =
    Some (push demo_board 1%nat, ["0"%string]).
Proof.
  assert (Hbad : Forall (rejected demo_board) ["x"; "7"]%string)
    by (repeat constructor).
  split; [exact Hbad|]. split; [reflexivity|]. split; [reflexivity|].
  split; [simpl; lia|].
  apply (playHumanMove_skips_rejected_lines 3 demo_board (push demo_board 1%nat)
           ["x"; "7"]%string "1"%string ["0"%string]);
    [exact Hbad | reflexivity | reflexivity | simpl; lia].
Defined.

Lemma undo_takes_back_plies_witness :
  @StackDiscipline _ _ script_position /\
  @PopAfterPush _ _ _ script_console /\
  playHumanMove 2 ["undo"; "2"]%string (push (push demo_board 0%nat) 1%nat) =
    playHumanMove 1 ["2"%string] demo_board /\
  playHumanMove 1 ["2"%string] demo_board =
    Some (push demo_board 2%nat, []).
Proof.
  split; [exact script_stack_discipline|].
  split; [exact script_pop_after_push|].
  split; [|reflexivity].
  apply (proj1 (undo_takes_back_plies script_stack_discipline
                  script_pop_after_push 1 ["2"%string] demo_board)).
  - left; reflexivity.
  - right; left; reflexivity.
Defined.

Lemma playHumanMove_pushes_one_move_witness :
  playHumanMove 3 ["undo"; "1"]%string (push demo_board 0%nat) =
    Some (push demo_board 1%nat, []) /\
  exists used play n,
    ["undo"; "1"]%string = used ++ play :: [] /\
    String.eqb play "undo" = false /\
    push_san (Nat.iter n pop (push demo_board 0%nat)) play =
      Some (push demo_board 1%nat) /\
    (n <= 2 * length used)%nat.
Proof.
  split; [reflexivity|].
  apply (proj2 (playHumanMove_pushes_one_move 3 ["undo"; "1"]%string
                  (push demo_board 0%nat))).
  reflexivity.
Defined.
